(** * GCS FUSE CSI driver: sidecar contract, injection validator and
      metadata-prefetch policy

    A shallow embedding of

    - [cmd/metadata_prefetch/main.go]: the machine-type regular expression,
      [getMachineType], [getDirectoryNames] and the control flow of [main];
    - [pkg/webhook/sidecar_spec.go]: [GetSidecarContainerSpec],
      [GetSidecarContainerVolumeSpec] and
      [ValidatePodHasSidecarContainerInjected];

    followed by the properties the specification states about them.

    Conventions.  A Go string is a byte sequence and is carried as a
    [string] (a list of [ascii], one per byte).  A slice that is only
    ranged over is a list; a nil slice and an empty one are both [[]].
    A pointer is an [option]; where the code dereferences it, [None] makes
    the function panic, which is the result [None].  A Go map is a [gmap].
    The parts of the Go library and of Kubernetes that the two files call
    are embedded in modules named after their packages, as far as the
    calls need them. *)

From Stdlib Require Import Ascii String ZArith Bool Lia DecimalString.
From stdpp Require Import base strings list gmap.

Local Open Scope bool_scope.

(** stdpp blocks the unfolding of string concatenation under [simpl];
    the proofs below compute with it. *)
#[local] Arguments String.append !s1 s2 : simpl nomatch.

(* ===================================================================== *)
(** * Part I: the program *)
(* ===================================================================== *)

(** ** Byte strings *)

Module Bytes.

(** [s] with the prefix [p] removed, when [s] starts with [p]. *)
Fixpoint stripPrefix (p s : string) : option string :=
  match p with
  | EmptyString => Some s
  | String a p' =>
      match s with
      | EmptyString => None
      | String b s' => if Ascii.eqb a b then stripPrefix p' s' else None
      end
  end.

Definition isEmpty (s : string) : bool :=
  match s with EmptyString => true | String _ _ => false end.

(** Every byte of [s] satisfies [p]. *)
Fixpoint all (p : ascii -> bool) (s : string) : bool :=
  match s with
  | EmptyString => true
  | String c s' => p c && all p s'
  end.

(** The bytes of [s], one string each. *)
Fixpoint explode (s : string) : list string :=
  match s with
  | EmptyString => []
  | String c s' => String c "" :: explode s'
  end.

End Bytes.

(** ** Package [regexp] *)

(** [main.go] compiles one pattern with [regexp.MustCompile] and asks
    [MatchString] of it.  The engine is the library's, not the
    repository's; it is embedded as a syntax tree over the operators of
    [regexp/syntax] that the pattern uses, with a backtracking matcher in
    continuation-passing style that answers the question [MatchString]
    answers: does some substring match.

    The subject is read byte by byte.  Go reads UTF-8 runes, but every
    rune the pattern names is ASCII, an ASCII byte never occurs inside a
    longer UTF-8 sequence, and [.] accepts every rune except line feed,
    an undecodable byte being a rune of width one: the same strings are
    accepted. *)

Module regexp.

Import Bytes.

Inductive Regexp : Type :=
| OpEmptyMatch                       (* the empty string *)
| OpLiteral (lit : string)           (* the bytes of lit *)
| OpCharClass (lo hi : ascii)        (* [lo-hi] *)
| OpAnyCharNotNL                     (* . *)
| OpBeginText                        (* ^ without flag m *)
| OpEndText                          (* $ without flag m *)
| OpCapture (re : Regexp)            (* a parenthesised group *)
| OpStar (re : Regexp)               (* zero or more re *)
| OpPlus (re : Regexp)               (* one or more re *)
| OpConcat (re1 re2 : Regexp)        (* re1 then re2 *)
| OpAlternate (re1 re2 : Regexp).    (* re1 or re2 *)

Definition lineFeed : ascii := "010"%char.

Definition inRange (lo hi c : ascii) : bool :=
  Ascii.leb lo c && Ascii.leb c hi.

Definition notNL (c : ascii) : bool := negb (Ascii.eqb c lineFeed).

(** A position in the subject is a pair: [bot] tells whether it is the
    beginning of the text, [s] is what is left to read.  A continuation
    accepts or refuses a position. *)
Definition Cont : Type := bool -> string -> bool.

(** Zero or more rounds of [step].  A round has to consume input: one
    that consumes nothing reaches no position that was not offered to [k]
    already.  Each round shortens the subject, so [fuel] above its length
    is never used up. *)
Fixpoint starLoop (step : bool -> string -> Cont -> bool) (k : Cont)
         (fuel : nat) (bot : bool) (s : string) : bool :=
  k bot s ||
  match fuel with
  | O => false
  | S fuel' =>
      step bot s (fun bot' s' =>
        (String.length s' <? String.length s)%nat
        && starLoop step k fuel' bot' s')
  end.

(** [matchk re bot s k]: [re] matches a prefix of [s] and [k] accepts
    the position after it. *)
Fixpoint matchk (re : Regexp) (bot : bool) (s : string) (k : Cont) : bool :=
  match re with
  | OpEmptyMatch => k bot s
  | OpLiteral lit =>
      match stripPrefix lit s with
      | Some s' => k (bot && isEmpty lit) s'
      | None => false
      end
  | OpCharClass lo hi =>
      match s with
      | String c s' => inRange lo hi c && k false s'
      | EmptyString => false
      end
  | OpAnyCharNotNL =>
      match s with
      | String c s' => notNL c && k false s'
      | EmptyString => false
      end
  | OpBeginText => bot && k bot s
  | OpEndText => isEmpty s && k bot s
  | OpCapture re1 => matchk re1 bot s k
  | OpStar re1 => starLoop (matchk re1) k (S (String.length s)) bot s
  | OpPlus re1 =>
      matchk re1 bot s (fun bot' s' =>
        starLoop (matchk re1) k (S (String.length s')) bot' s')
  | OpConcat re1 re2 =>
      matchk re1 bot s (fun bot' s' => matchk re2 bot' s' k)
  | OpAlternate re1 re2 => matchk re1 bot s k || matchk re2 bot s k
  end.

(** A match may start at any position of the subject. *)
Fixpoint searchFrom (re : Regexp) (bot : bool) (s : string) : bool :=
  matchk re bot s (fun _ _ => true) ||
  match s with
  | EmptyString => false
  | String _ s' => searchFrom re false s'
  end.

(** [MatchString] reports whether [s] contains any match of [re]. *)
Definition MatchString (re : Regexp) (s : string) : bool :=
  searchFrom re true s.

(** What a regular expression denotes, independently of the matcher.
    [Matches re bot s bot' s']: from the position [(bot, s)], [re]
    matches up to the position [(bot', s')]. *)
Inductive Matches : Regexp -> bool -> string -> bool -> string -> Prop :=
| M_Empty bot s : Matches OpEmptyMatch bot s bot s
| M_Literal lit bot s :
    Matches (OpLiteral lit) bot (lit +:+ s) (bot && isEmpty lit) s
| M_CharClass lo hi c bot s :
    inRange lo hi c = true ->
    Matches (OpCharClass lo hi) bot (String c s) false s
| M_AnyCharNotNL c bot s :
    notNL c = true ->
    Matches OpAnyCharNotNL bot (String c s) false s
| M_BeginText s : Matches OpBeginText true s true s
| M_EndText bot : Matches OpEndText bot "" bot ""
| M_Capture re bot s bot' s' :
    Matches re bot s bot' s' -> Matches (OpCapture re) bot s bot' s'
| M_StarNil re bot s : Matches (OpStar re) bot s bot s
| M_StarCons re bot s bot1 s1 bot2 s2 :
    Matches re bot s bot1 s1 ->
    Matches (OpStar re) bot1 s1 bot2 s2 ->
    Matches (OpStar re) bot s bot2 s2
| M_Plus re bot s bot1 s1 bot2 s2 :
    Matches re bot s bot1 s1 ->
    Matches (OpStar re) bot1 s1 bot2 s2 ->
    Matches (OpPlus re) bot s bot2 s2
| M_Concat re1 re2 bot s bot1 s1 bot2 s2 :
    Matches re1 bot s bot1 s1 ->
    Matches re2 bot1 s1 bot2 s2 ->
    Matches (OpConcat re1 re2) bot s bot2 s2
| M_AltL re1 re2 bot s bot' s' :
    Matches re1 bot s bot' s' -> Matches (OpAlternate re1 re2) bot s bot' s'
| M_AltR re1 re2 bot s bot' s' :
    Matches re2 bot s bot' s' -> Matches (OpAlternate re1 re2) bot s bot' s'.

(** *** Compilation

    [regexp.Compile] for the part of the syntax that the pattern of
    [main.go] is written in: literal ASCII bytes, [.], [^], [$], a class
    of one range of ASCII bytes, groups, alternation, and the repetitions
    [*] and [+].  Anything else, and a malformed expression, is refused.

    The parser reads the expression from left to right.  A frame holds
    the alternatives that are complete and the items of the alternative
    being read, both latest first; an open parenthesis starts a frame and
    a closing one ends it. *)

Record frame : Type := { alts : list Regexp; items : list Regexp }.

Definition emptyFrame : frame := {| alts := []; items := [] |}.

(** [r1 r2 ... rn] from the list [rn; ...; r1], nested to the right. *)
Definition concatOf (latestFirst : list Regexp) : Regexp :=
  match latestFirst with
  | [] => OpEmptyMatch
  | last :: earlier => fold_left (fun acc re => OpConcat re acc) earlier last
  end.

(** [r1|r2|...|rn] from the list [rn; ...; r1], nested to the right. *)
Definition alternateOf (latestFirst : list Regexp) : Regexp :=
  match latestFirst with
  | [] => OpEmptyMatch
  | last :: earlier => fold_left (fun acc re => OpAlternate re acc) earlier last
  end.

Definition closeFrame (f : frame) : Regexp :=
  alternateOf (concatOf (items f) :: alts f).

Definition push (re : Regexp) (f : frame) : frame :=
  {| alts := alts f; items := re :: items f |}.

(** A literal byte joins the literal that it follows. *)
Definition pushLiteral (c : ascii) (f : frame) : frame :=
  match items f with
  | OpLiteral lit :: earlier =>
      {| alts := alts f; items := OpLiteral (lit +:+ String c "") :: earlier |}
  | _ => push (OpLiteral (String c "")) f
  end.

(** [s] without its last byte, and that byte. *)
Fixpoint splitLast (c : ascii) (s : string) : string * ascii :=
  match s with
  | EmptyString => ("", c)
  | String c' s' => let (init, last) := splitLast c' s' in (String c init, last)
  end.

(** A repetition applies to the item before it, and of a literal to its
    last byte only.  With no item before it, and directly after another
    repetition, the expression is malformed. *)
Definition repeatLast (op : Regexp -> Regexp) (f : frame) : option frame :=
  match items f with
  | [] => None
  | OpStar _ :: _ | OpPlus _ :: _ => None
  | OpLiteral (String c lit) :: earlier =>
      match splitLast c lit with
      | (EmptyString, last) =>
          Some {| alts := alts f;
                  items := op (OpLiteral (String last "")) :: earlier |}
      | (init, last) =>
          Some {| alts := alts f;
                  items := op (OpLiteral (String last ""))
                           :: OpLiteral init :: earlier |}
      end
  | re :: earlier => Some {| alts := alts f; items := op re :: earlier |}
  end.

Definition nextAlternative (f : frame) : frame :=
  {| alts := concatOf (items f) :: alts f; items := [] |}.

Definition isOneOf (cs : string) (c : ascii) : bool :=
  negb (all (fun c' => negb (Ascii.eqb c c')) cs).

Fixpoint parse (expr : string) (top : frame) (stack : list frame)
  : option Regexp :=
  match expr with
  | EmptyString =>
      match stack with
      | [] => Some (closeFrame top)
      | _ :: _ => None
      end
  | String c expr' =>
      if Ascii.eqb c "(" then parse expr' emptyFrame (top :: stack)
      else if Ascii.eqb c ")" then
        match stack with
        | [] => None
        | parent :: stack' =>
            parse expr' (push (OpCapture (closeFrame top)) parent) stack'
        end
      else if Ascii.eqb c "|" then parse expr' (nextAlternative top) stack
      else if Ascii.eqb c "*" then
        match repeatLast OpStar top with
        | Some top' => parse expr' top' stack
        | None => None
        end
      else if Ascii.eqb c "+" then
        match repeatLast OpPlus top with
        | Some top' => parse expr' top' stack
        | None => None
        end
      else if Ascii.eqb c "." then parse expr' (push OpAnyCharNotNL top) stack
      else if Ascii.eqb c "^" then parse expr' (push OpBeginText top) stack
      else if Ascii.eqb c "$" then parse expr' (push OpEndText top) stack
      else if Ascii.eqb c "[" then
        match expr' with
        | String lo (String "-" (String hi (String "]" expr''))) =>
            if isOneOf "^[]\-" lo || isOneOf "^[]\-" hi
               || negb (Ascii.leb lo hi) || negb (Ascii.ltb hi "128")
            then None
            else parse expr'' (push (OpCharClass lo hi) top) stack
        | _ => None
        end
      else if isOneOf "]?{}\" c || negb (Ascii.ltb c "128") then None
      else parse expr' (pushLiteral c top) stack
  end.

Definition Compile (expr : string) : option Regexp := parse expr emptyFrame [].

End regexp.

(** ** Package [strings] *)

Module strings.

Import Bytes.

(** The pieces of [s] between the occurrences of [sep], found from the
    left and not overlapping.  [skip] counts the bytes of an occurrence
    already found that are still to be passed over; the head of the result
    is the piece being read. *)
Fixpoint genSplit (sep s : string) (skip : nat) : list string :=
  match s with
  | EmptyString => [""]
  | String c s' =>
      match skip with
      | S skip' => genSplit sep s' skip'
      | O =>
          match stripPrefix sep s with
          | Some _ => "" :: genSplit sep s' (String.length sep - 1)
          | None =>
              match genSplit sep s' 0 with
              | piece :: pieces => String c piece :: pieces
              | [] => [String c ""]
              end
          end
      end
  end.

(** [strings.Split(s, sep)].  With an empty separator Go cuts after each
    UTF-8 sequence; that case is embedded for ASCII text only (a cut
    after each byte), and no call of the repository reaches it. *)
Definition Split (s sep : string) : list string :=
  if isEmpty sep then explode s else genSplit sep s 0.

(** [strings.Join(elems, sep)]. *)
Definition Join (elems : list string) (sep : string) : string :=
  String.concat sep elems.

End strings.

(** ** Errors and package [fmt] *)

Module fmt.

(** An error value: its text and, for an error made by [Errorf] with the
    verb [%w], the error it wraps. *)
Inductive error : Type :=
| errorString (text : string)
| wrapError (text : string) (err : error).

(** Method [Error()]. *)
Definition Error (e : error) : string :=
  match e with
  | errorString text => text
  | wrapError text _ => text
  end.

(** An integer under the verb [%v]: decimal digits. *)
Definition formatInt (n : Z) : string := NilZero.string_of_int (Z.to_int n).

(** [fmt.Errorf(prefix + "%w", err)]. *)
Definition Errorf_w (prefix : string) (err : error) : error :=
  wrapError (prefix +:+ Error err) err.

(** [fmt.Errorf(prefix + "%v", n)] for an integer [n]. *)
Definition Errorf_v (prefix : string) (n : Z) : error :=
  errorString (prefix +:+ formatInt n).

End fmt.

(** ** Packages [io] and [net/http] *)

Module io.

Import fmt.

(** A reader, by what it is going to deliver: [data], and then either
    the end of the stream or the failure [failure]. *)
Record Reader : Type := { data : string; failure : option error }.

(** [io.ReadAll] reads until an error or the end of the stream and
    returns what it read; reaching the end is not an error. *)
Definition ReadAll (r : Reader) : string * option error :=
  (data r, failure r).

End io.

Module http.

Definition MethodGet : string := "GET".
Definition StatusOK : Z := 200.

Record Request : Type := {
  Method : string;
  URL : string;
  Header : gmap string (list string)
}.

(** [req.Header.Set(key, value)] replaces the values of [key].  The key
    the program sets is in canonical form already. *)
Definition Header_Set (req : Request) (key value : string) : Request :=
  {| Method := Method req;
     URL := URL req;
     Header := <[key := [value]]> (Header req) |}.

Record Response : Type := {
  StatusCode : Z;
  Body : io.Reader
}.

End http.

(** ** Package [klog] *)

Module klog.

(** A line of the log, by severity. *)
Inductive Entry : Type :=
| Info (msg : string)
| Warning (msg : string)
| Error (msg : string).

End klog.

(** ** [cmd/metadata_prefetch/main.go] *)

Module MetadataPrefetch.

Import regexp fmt.

Definition mountPathsLocation : string := "/volumes/".

(** [regexp.MustCompile] of the pattern
    [^projects/[0-9]+/machineTypes/(a3|a4|ct5l|ct5lp|ct5p|ct6e)-.*$]:
    the syntax tree that [Compile] returns for it (lemma
    [supportedMachineRegex_compiled]); as the compilation succeeds,
    [MustCompile] does not panic. *)
Definition supportedMachineRegex : Regexp :=
  OpConcat OpBeginText
 (OpConcat (OpLiteral "projects/")
 (OpConcat (OpPlus (OpCharClass "0" "9"))
 (OpConcat (OpLiteral "/machineTypes/")
 (OpConcat (OpCapture
             (OpAlternate (OpLiteral "a3")
             (OpAlternate (OpLiteral "a4")
             (OpAlternate (OpLiteral "ct5l")
             (OpAlternate (OpLiteral "ct5lp")
             (OpAlternate (OpLiteral "ct5p")
                          (OpLiteral "ct6e")))))))
 (OpConcat (OpLiteral "-")
 (OpConcat (OpStar OpAnyCharNotNL)
           OpEndText)))))).

(** A call that waits for something outside the process returns, or
    blocks for ever. *)
Inductive Call (A : Type) : Type :=
| Returns (a : A)
| Blocks.

Arguments Returns {A} a.
Arguments Blocks {A}.

(** [os.DirEntry], by its two methods that the program calls. *)
Record DirEntry : Type := { Name : string; IsDir : bool }.

(** What the process finds outside itself: the answers of the calls that
    leave it.  [NewRequestWithContext] takes the method and the URL (the
    context is not cancelled in a run without SIGTERM, and the body is
    nil); [ReadDir] returns the entries it could read and the error that
    stopped it, if any; [Cmd_Start] takes the name and the arguments of
    the command; [Cmd_Wait] is asked of the started command. *)
Record World : Type := {
  NewRequestWithContext : string -> string -> http.Request + error;
  DefaultClient_Do : http.Request -> Call (http.Response + error);
  Getenv : string -> string;
  ReadDir : string -> list DirEntry * option error;
  Cmd_Start : string -> list string -> option error;
  Cmd_Wait : Call (option error)
}.

(** The result is the pair that the Go function returns; the deferred
    [resp.Body.Close()] has no effect that the program observes. *)
Definition getMachineType (w : World) : Call (string * option error) :=
  match NewRequestWithContext w http.MethodGet
          "http://metadata.google.internal/computeMetadata/v1/instance/machine-type" with
  | inr err => Returns ("", Some (Errorf_w "failed to create request: " err))
  | inl req =>
      let req := http.Header_Set req "Metadata-Flavor" "Google" in
      match DefaultClient_Do w req with
      | Blocks => Blocks
      | Returns (inr err) =>
          Returns ("", Some (Errorf_w "failed to get machine type: " err))
      | Returns (inl resp) =>
          if negb (http.StatusCode resp =? http.StatusOK)%Z then
            Returns ("", Some (Errorf_v "unexpected status code: "
                                        (http.StatusCode resp)))
          else
            match io.ReadAll (http.Body resp) with
            | (_, Some err) =>
                Returns ("", Some (Errorf_w "failed to read response body: " err))
            | (body, None) => Returns (body, None)
            end
      end
  end.

(** [getDirectoryNames] returns the names of the directories within the
    provided path. *)
Definition getDirectoryNames (w : World) (dirPath : string)
  : list string * option error :=
  let directories : list string := [] in
  match ReadDir w dirPath with
  | (_, Some err) => (directories, Some err)
  | (items, None) =>
      (fold_left
         (fun directories item =>
            if IsDir item then directories ++ [Name item] else directories)
         items directories,
       None)
  end.

(** The value of [enablePrefetch] in [main], from the value [val] of the
    environment variable and the machine type. *)
Definition enablePrefetch (val machineType : string) : bool :=
  if String.eqb val "TRUE" then true
  else if String.eqb val "FALSE" then false
  else MatchString supportedMachineRegex machineType.

(** What [main] does that can be seen from outside: lines of the log and
    the start of a command. *)
Inductive Event : Type :=
| Log (entry : klog.Entry)
| Start (name : string) (args : list string).

(** Where [main] is once it makes no further step: parked in its last
    statement, [select {}], or stuck in a call that blocks. *)
Inductive Site : Type := InGetMachineType | InWait.

Inductive Final : Type :=
| Parked
| Stuck (site : Site).

(** The main goroutine, after flag parsing, in a run in which no SIGTERM
    arrives (the handler goroutine, which alone cancels the context and
    exits the process, then never runs).  The result is the events in
    their order and where the goroutine comes to rest. *)
Definition main (w : World) : list Event * Final :=
  match getMachineType w with
  | Blocks => ([], Stuck InGetMachineType)
  | Returns (machineType, err) =>
      let fetched :=
        match err with
        | Some err =>
            [Log (klog.Warning
                    ("Unable to fetch machine-type, ignoring: " +:+ Error err))]
        | None => []
        end in
      let val := Getenv w "USER_ENABLED_METADATA_PREFETCH" in
      let sleep := [Log (klog.Info "Going to sleep...")] in
      if enablePrefetch val machineType then
        match Cmd_Start w "ls" ["-R"; mountPathsLocation] with
        | None =>
            let started := [Start "ls" ["-R"; mountPathsLocation]] in
            let listed :=
              match getDirectoryNames w mountPathsLocation with
              | (mountPaths, None) =>
                  [Log (klog.Info
                          ("Running ls on mountPath(s): "
                           +:+ strings.Join mountPaths ", "))]
              | (_, Some err) =>
                  [Log (klog.Warning
                          ("failed to get mountPaths: " +:+ Error err))]
              end in
            match Cmd_Wait w with
            | Blocks => (fetched ++ started ++ listed, Stuck InWait)
            | Returns (Some err) =>
                (fetched ++ started ++ listed
                 ++ [Log (klog.Error
                            ("Error while executing ls command: " +:+ Error err))]
                 ++ sleep,
                 Parked)
            | Returns None =>
                (fetched ++ started ++ listed
                 ++ [Log (klog.Info "Metadata prefetch complete")]
                 ++ sleep,
                 Parked)
            end
        | Some err =>
            (fetched
             ++ [Log (klog.Error
                        ("Error starting ls command: " +:+ Error err +:+ "."))]
             ++ sleep,
             Parked)
        end
      else (fetched ++ sleep, Parked)
  end.

End MetadataPrefetch.

(** ** Kubernetes API types *)

Module resource.

(** [resource.Quantity]: a fixed-point number with a format.  The sidecar
    contract copies quantities and never looks into them; a quantity is
    carried as the text it was parsed from, such as [250m] or [1Gi]. *)
Record Quantity : Type := MustParse { text : string }.

End resource.

(** Package [k8s.io/api/core/v1], one module per struct, with the fields
    that the contract sets or reads; the fields left out keep their zero
    value throughout. *)
Module v1.

Definition ResourceCPU : string := "cpu".
Definition ResourceMemory : string := "memory".
Definition ResourceEphemeralStorage : string := "ephemeral-storage".

Module SecurityContext.
Record t : Type := {
  AllowPrivilegeEscalation : option bool;
  RunAsUser : option Z;
  RunAsGroup : option Z
}.
End SecurityContext.

Module ResourceRequirements.
Record t : Type := {
  Limits : gmap string resource.Quantity;
  Requests : gmap string resource.Quantity
}.
End ResourceRequirements.

Module VolumeMount.
Record t : Type := { Name : string; MountPath : string }.
End VolumeMount.

Module Container.
Record t : Type := {
  Name : string;
  Image : string;
  ImagePullPolicy : string;
  SecurityContext : option SecurityContext.t;
  Args : list string;
  Resources : ResourceRequirements.t;
  VolumeMounts : list VolumeMount.t
}.
End Container.

Module HostPathVolumeSource.
Record t : Type := { Path : string }.
End HostPathVolumeSource.

Module EmptyDirVolumeSource.
Record t : Type := { Medium : string; SizeLimit : option resource.Quantity }.
End EmptyDirVolumeSource.

Module VolumeSource.
Record t : Type := {
  HostPath : option HostPathVolumeSource.t;
  EmptyDir : option EmptyDirVolumeSource.t
}.
End VolumeSource.

Module Volume.
Record t : Type := { Name : string; VolumeSource : VolumeSource.t }.
End Volume.

Module PodSpec.
Record t : Type := {
  Volumes : list Volume.t;
  Containers : list Container.t
}.
End PodSpec.

Module Pod.
Record t : Type := { Spec : PodSpec.t }.
End Pod.

End v1.

(** ** [pkg/webhook/sidecar_spec.go] *)

Module Webhook.

Import v1.

Definition SidecarContainerName : string := "gke-gcsfuse-sidecar".
Definition SidecarContainerVolumeName : string := "gke-gcsfuse-tmp".
Definition SidecarContainerVolumeMountPath : string := "/tmp".

(** Modelled from the spec: the declaration of the struct [Config] is not
    among the sources.  Its fields are the six that
    [GetSidecarContainerSpec] reads, with the types at which it uses them:
    image repository, image version and pull policy are strings, the three
    limits are quantities; none is validated here. *)
Record Config : Type := {
  ContainerImage : string;
  ImageVersion : string;
  ImagePullPolicy : string;
  CPULimit : resource.Quantity;
  MemoryLimit : resource.Quantity;
  EphemeralStorageLimit : resource.Quantity
}.

(** The argument is a pointer; reading a field of nil panics. *)
Definition GetSidecarContainerSpec (c : option Config) : option Container.t :=
  c ← c;
  Some {|
    Container.Name := SidecarContainerName;
    Container.Image := ContainerImage c +:+ ":" +:+ ImageVersion c;
    Container.ImagePullPolicy := ImagePullPolicy c;
    Container.SecurityContext := Some {|
      SecurityContext.AllowPrivilegeEscalation := Some false;
      SecurityContext.RunAsUser := Some 0%Z;
      SecurityContext.RunAsGroup := Some 0%Z
    |};
    Container.Args := ["--v=5"];
    Container.Resources := {|
      ResourceRequirements.Limits :=
        {[ ResourceCPU := CPULimit c;
           ResourceMemory := MemoryLimit c;
           ResourceEphemeralStorage := EphemeralStorageLimit c ]};
      ResourceRequirements.Requests :=
        {[ ResourceCPU := CPULimit c;
           ResourceMemory := MemoryLimit c;
           ResourceEphemeralStorage := EphemeralStorageLimit c ]}
    |};
    Container.VolumeMounts := [
      {| VolumeMount.Name := SidecarContainerVolumeName;
         VolumeMount.MountPath := SidecarContainerVolumeMountPath |}
    ]
  |}.

(** The function takes no argument; [tt] stands for a call. *)
Definition GetSidecarContainerVolumeSpec (_ : unit) : Volume.t :=
  {| Volume.Name := SidecarContainerVolumeName;
     Volume.VolumeSource := {|
       VolumeSource.HostPath := None;
       VolumeSource.EmptyDir := Some {|
         EmptyDirVolumeSource.Medium := "";
         EmptyDirVolumeSource.SizeLimit := None
       |}
     |}
  |}.

(** [p != nil]. *)
Definition notNil {A : Type} (p : option A) : bool :=
  match p with Some _ => true | None => false end.

(** The inner loop of the validator, over the volume mounts of the
    container that matched; [containerInjected] is the variable of that
    name.  The loop leaves at the first mount with the name and the path
    of the contract. *)
Fixpoint rangeVolumeMounts (vms : list VolumeMount.t) (containerInjected : bool)
  : bool :=
  match vms with
  | [] => containerInjected
  | v :: vms' =>
      if String.eqb (VolumeMount.Name v) SidecarContainerVolumeName
         && String.eqb (VolumeMount.MountPath v) SidecarContainerVolumeMountPath
      then true
      else rangeVolumeMounts vms' containerInjected
  end.

(** The condition of the outer loop.  [&&] evaluates its right operand
    only when the name matches; indexing the result of [Split] at [0]
    panics if there is no such element. *)
Definition nameAndImageMatch (image : string) (c : Container.t) : option bool :=
  if String.eqb (Container.Name c) SidecarContainerName then
    repo ← strings.Split (Container.Image c) ":" !! 0%nat;
    Some (String.eqb repo image)
  else Some false.

(** The outer loop, over the containers of the pod.  At the first
    container that meets the condition it runs the inner loop and leaves. *)
Fixpoint rangeContainers (image : string) (cs : list Container.t)
         (containerInjected : bool) : option bool :=
  match cs with
  | [] => Some containerInjected
  | c :: cs' =>
      match nameAndImageMatch image c with
      | None => None
      | Some true =>
          Some (rangeVolumeMounts (Container.VolumeMounts c) containerInjected)
      | Some false => rangeContainers image cs' containerInjected
      end
  end.

(** The second loop, over the volumes of the pod. *)
Fixpoint rangeVolumes (vs : list Volume.t) (volumeInjected : bool) : bool :=
  match vs with
  | [] => volumeInjected
  | v :: vs' =>
      if String.eqb (Volume.Name v) SidecarContainerVolumeName
         && notNil (VolumeSource.EmptyDir (Volume.VolumeSource v))
      then true
      else rangeVolumes vs' volumeInjected
  end.

(** The pod is a pointer; [pod.Spec] panics on nil. *)
Definition ValidatePodHasSidecarContainerInjected
           (image : string) (pod : option Pod.t) : option bool :=
  pod ← pod;
  containerInjected ← rangeContainers image (PodSpec.Containers (Pod.Spec pod)) false;
  let volumeInjected := rangeVolumes (PodSpec.Volumes (Pod.Spec pod)) false in
  Some (containerInjected && volumeInjected).

End Webhook.

(** ** The test driver that shares the file of the sidecar contract *)

(** Package [specs] of the repository is not among the sources.  The test
    driver compares the prefix of a test configuration with constants of
    that package and passes others on; their values are parameters. *)
Module specs.

Record Constants : Type := {
  FakeVolumePrefix : string;
  ForceNewBucketPrefix : string;
  MultipleBucketsPrefix : string;
  SameBucketDifferentDirPrefix : string;
  NonRootVolumePrefix : string;
  InvalidMountOptionsVolumePrefix : string;
  ImplicitDirsVolumePrefix : string;
  ImplicitDirsPath : string;
  K8sServiceAccountName : string;
  K8sSecretName : string
}.

End specs.

(** Package [storageframework] of Kubernetes: the kinds of test volume. *)
Module storageframework.

Definition PreprovisionedPV : string := "PreprovisionedPV".
Definition DynamicPV : string := "DynamicPV".
Definition InlineVolume : string := "InlineVolume".
Definition GenericEphemeralVolume : string := "GenericEphemeralVolume".

(** [PerTestConfig], by the two things the driver reads of it: the
    prefix, and the name of the namespace of its framework, behind two
    pointers. *)
Record Namespace : Type := { Name : string }.
Record Framework : Type := { Namespace_ : option Namespace }.
Record PerTestConfig : Type := {
  Prefix : string;
  Framework_ : option Framework
}.

End storageframework.

Module e2etest.

Import fmt.

Record gcsVolume : Type := {
  bucketName : string;
  serviceAccountNamespace : string;
  mountOptions : string;
  shared : bool;
  readOnly : bool
}.

(** A value of the interface [storageframework.TestVolume]: the nil
    interface, a pointer to a [gcsVolume], or a value of another type. *)
Inductive TestVolume : Type :=
| nilVolume
| gcsVolumePtr (v : option gcsVolume)
| otherVolume.

(** [storage.ServiceBucket], by the fields the driver sets or reads. *)
Record ServiceBucket : Type := { Project : string; Name : string }.

(** A token source and a storage service are handles that the driver
    passes on without looking into them. *)
Record TokenSource : Type := { tokenSourceID : string }.
Record Service : Type := { serviceID : string }.

(** What the driver does to the world outside, in the order in which it
    does it. *)
Inductive Effect : Type :=
| By (step : string) (bucket : string)
| CreateBucketCall (svc : Service) (bucket : ServiceBucket)
| DeleteBucketCall (svc : Service) (bucket : ServiceBucket)
| osCreate (path : string)
| osRemove (path : string)
| gsutil (args : list string).

(** The world outside, by its answers.  The first argument of an answer
    is the number of answers given before it, so that the same question
    may be answered differently at different times. *)
Record World : Type := {
  NewString : nat -> string;
  GetProjectID : string;
  GetTokenSourceFromK8sServiceAccount :
    nat -> string -> string -> string -> TokenSource + error;
  SetupService : nat -> TokenSource -> Service + error;
  CreateBucket : nat -> Service -> ServiceBucket -> ServiceBucket + error;
  DeleteBucket : nat -> Service -> ServiceBucket -> option error;
  Create : nat -> string -> option error;
  Remove : nat -> string -> option error;
  CombinedOutput : nat -> list string -> string * option error
}.

(** The state that the methods of the driver share: the volume store of
    the driver, the test configuration that the caller holds by pointer
    (the driver writes its prefix), the number of answers that the world
    has given, and the effects so far. *)
Record State : Type := {
  volumeStore : list gcsVolume;
  config : option storageframework.PerTestConfig;
  answers : nat;
  effects : list Effect
}.

(** A call returns a value, or ends the test through [Failf], or panics
    on a nil pointer; in each case it leaves a state. *)
Inductive Outcome (A : Type) : Type :=
| Done (a : A) (s : State)
| Failf (msg : string) (s : State)
| Panic (s : State).

Arguments Done {A} a s.
Arguments Failf {A} msg s.
Arguments Panic {A} s.

Definition M (A : Type) : Type := State -> Outcome A.

Definition ret {A : Type} (a : A) : M A := fun s => Done a s.

Definition bind {A B : Type} (m : M A) (k : A -> M B) : M B :=
  fun s =>
    match m s with
    | Done a s' => k a s'
    | Failf msg s' => Failf msg s'
    | Panic s' => Panic s'
    end.

Notation "x <- m ;; k" := (bind m (fun x => k))
  (at level 100, m at next level, right associativity).
Notation "m ;;; k" := (bind m (fun _ => k))
  (at level 100, right associativity).

Definition failf {A : Type} (msg : string) : M A := fun s => Failf msg s.
Definition panic {A : Type} : M A := fun s => Panic s.
Definition get : M State := fun s => Done s s.

(** The next answer of the world is the one numbered by the answers so
    far. *)
Definition ask {A : Type} (answer : nat -> A) : M A :=
  fun s =>
    Done (answer (answers s))
         {| volumeStore := volumeStore s;
            config := config s;
            answers := S (answers s);
            effects := effects s |}.

Definition emit (e : Effect) : M unit :=
  fun s =>
    Done tt {| volumeStore := volumeStore s;
               config := config s;
               answers := answers s;
               effects := effects s ++ [e] |}.

Definition setVolumeStore (store : list gcsVolume) : M unit :=
  fun s =>
    Done tt {| volumeStore := store;
               config := config s;
               answers := answers s;
               effects := effects s |}.

(** [config.Prefix] and [config.Prefix = prefix]; both panic on a nil
    configuration. *)
Definition getPrefix : M string :=
  fun s =>
    match config s with
    | Some c => Done (storageframework.Prefix c) s
    | None => Panic s
    end.

Definition setPrefix (prefix : string) : M unit :=
  fun s =>
    match config s with
    | Some c =>
        Done tt {| volumeStore := volumeStore s;
                   config := Some {| storageframework.Prefix := prefix;
                                     storageframework.Framework_ :=
                                       storageframework.Framework_ c |};
                   answers := answers s;
                   effects := effects s |}
    | None => Panic s
    end.

(** [config.Framework.Namespace.Name], through three pointers. *)
Definition getNamespaceName : M string :=
  fun s =>
    match config s with
    | Some c =>
        match storageframework.Framework_ c with
        | Some f =>
            match storageframework.Namespace_ f with
            | Some ns => Done (storageframework.Name ns) s
            | None => Panic s
            end
        | None => Panic s
        end
    | None => Panic s
    end.

Section Driver.

Variable k : specs.Constants.
Variable w : World.

(** The name of the driver, [driver.DefaultName], is declared in a
    package that is not among the sources. *)
Variable DefaultName : string.

Definition prepareStorageService (serviceAccountNamespace : string)
  : M (Service + error) :=
  ts <- ask (fun n =>
         GetTokenSourceFromK8sServiceAccount w n serviceAccountNamespace
           (specs.K8sServiceAccountName k) "") ;;
  match ts with
  | inr err =>
      ret (inr (Errorf_w "token manager failed to get token source: " err))
  | inl ts =>
      svc <- ask (fun n => SetupService w n ts) ;;
      match svc with
      | inr err =>
          ret (inr (Errorf_w
                      "storage service manager failed to setup service: " err))
      | inl svc => ret (inl svc)
      end
  end.

(** [createBucket] creates a GCS bucket. *)
Definition createBucket (serviceAccountNamespace : string) : M string :=
  svc <- prepareStorageService serviceAccountNamespace ;;
  match svc with
  | inr err => failf ("Failed to prepare storage service: " +:+ Error err)
  | inl storageService =>
      name <- ask (NewString w) ;;
      let newBucket := {| Project := GetProjectID w; Name := name |} in
      emit (By "Creating bucket" (Name newBucket)) ;;;
      emit (CreateBucketCall storageService newBucket) ;;;
      bucket <- ask (fun n => CreateBucket w n storageService newBucket) ;;
      match bucket with
      | inr err => failf ("Failed to create a new GCS bucket: " +:+ Error err)
      | inl bucket => ret (Name bucket)
      end
  end.

(** [deleteBucket] deletes the GCS bucket. *)
Definition deleteBucket (serviceAccountNamespace bucketName : string)
  : M unit :=
  svc <- prepareStorageService serviceAccountNamespace ;;
  match svc with
  | inr err => failf ("Failed to prepare storage service: " +:+ Error err)
  | inl storageService =>
      emit (By "Deleting bucket" bucketName) ;;;
      emit (DeleteBucketCall storageService
              {| Project := ""; Name := bucketName |}) ;;;
      err <- ask (fun n => DeleteBucket w n storageService
                             {| Project := ""; Name := bucketName |}) ;;
      match err with
      | Some err => failf ("Failed to delete the GCS bucket: " +:+ Error err)
      | None => ret tt
      end
  end.

(** The deferred removal of the temporary file in [createImplicitDir]. *)
Definition removeDataFile (bucketName : string) : M unit :=
  emit (osRemove bucketName) ;;;
  err <- ask (fun n => Remove w n bucketName) ;;
  match err with
  | Some err => failf ("Failed to delete the empty data file: " +:+ Error err)
  | None => ret tt
  end.

(** [createImplicitDir] uses the bucket name as the name of a temporary
    file and copies it into the bucket under [dirPath].  The removal is
    deferred: it also runs when the copy has failed, and a failure of the
    removal is then the later of the two and the one that propagates. *)
Definition createImplicitDir (dirPath bucketName : string) : M unit :=
  emit (osCreate bucketName) ;;;
  err <- ask (fun n => Create w n bucketName) ;;
  match err with
  | Some err => failf ("Failed to create an empty data file: " +:+ Error err)
  | None =>
      let args := ["cp"; bucketName;
                   "gs://" +:+ bucketName +:+ "/" +:+ dirPath +:+ "/"] in
      emit (gsutil args) ;;;
      out <- ask (fun n => CombinedOutput w n args) ;;
      match out with
      | (output, Some err) =>
          fun s =>
            match removeDataFile bucketName s with
            | Done _ s' =>
                Failf ("Failed to create a implicit dir in GCS bucket: "
                       +:+ Error err +:+ ", output: " +:+ output) s'
            | other => other
            end
      | (_, None) => removeDataFile bucketName
      end
  end.

(** The loop of the case of several buckets, [rounds] times: create a
    bucket, store a volume for it, note its name. *)
Fixpoint createBuckets (rounds : nat) (l : list string) : M (list string) :=
  match rounds with
  | O => ret l
  | S rounds' =>
      ns <- getNamespaceName ;;
      bucketName <- createBucket ns ;;
      ns' <- getNamespaceName ;;
      s <- get ;;
      setVolumeStore
        (volumeStore s ++ [ {| bucketName := bucketName;
                               serviceAccountNamespace := ns';
                               mountOptions := "";
                               shared := false;
                               readOnly := false |} ]) ;;;
      createBuckets rounds' (l ++ [bucketName])
  end.

(** The second switch of [CreateVolume]: the mount options for the
    prefix. *)
Definition mountOptionsFor (prefix bucketName : string) : M string :=
  let mountOptions := "debug_gcs,debug_fuse,debug_fs" in
  if String.eqb prefix (specs.NonRootVolumePrefix k) then
    ret (mountOptions +:+ ",uid=1001,gid=3003")
  else if String.eqb prefix (specs.InvalidMountOptionsVolumePrefix k) then
    ret (mountOptions +:+ ",invalid-option")
  else if String.eqb prefix (specs.ImplicitDirsVolumePrefix k) then
    createImplicitDir (specs.ImplicitDirsPath k) bucketName ;;;
    ret (mountOptions +:+ ",implicit-dirs")
  else if String.eqb prefix (specs.SameBucketDifferentDirPrefix k) then
    dirPath <- ask (NewString w) ;;
    createImplicitDir dirPath bucketName ;;;
    ret (mountOptions +:+ ",implicit-dirs,only-dir=" +:+ dirPath)
  else ret mountOptions.

(** What follows the first switch of [CreateVolume] when it has not
    returned: the mount options, the volume, the store. *)
Definition finishVolume (bucketName : string) (isMultipleBucketsPrefix : bool)
  : M TestVolume :=
  prefix <- getPrefix ;;
  mountOptions <- mountOptionsFor prefix bucketName ;;
  ns <- getNamespaceName ;;
  let v := {| bucketName := bucketName;
              serviceAccountNamespace := ns;
              mountOptions := mountOptions;
              shared := false;
              readOnly := false |} in
  (if isMultipleBucketsPrefix then ret tt
   else s <- get ;; setVolumeStore (volumeStore s ++ [v])) ;;;
  ret (gcsVolumePtr (Some v)).

Definition CreateVolume (volType : string) : M TestVolume :=
  if String.eqb volType storageframework.PreprovisionedPV then
    prefix <- getPrefix ;;
    if String.eqb prefix (specs.FakeVolumePrefix k) then
      bucketName <- ask (NewString w) ;;
      finishVolume bucketName false
    else if String.eqb prefix (specs.ForceNewBucketPrefix k) then
      ns <- getNamespaceName ;;
      bucketName <- createBucket ns ;;
      finishVolume bucketName false
    else if String.eqb prefix (specs.MultipleBucketsPrefix k) then
      l <- createBuckets 2 [] ;;
      setPrefix (strings.Join l ",") ;;;
      finishVolume "_" true
    else if String.eqb prefix (specs.SameBucketDifferentDirPrefix k) then
      s <- get ;;
      match last (volumeStore s) with
      | None =>
          ns <- getNamespaceName ;;
          bucketName <- createBucket ns ;;
          finishVolume bucketName false
      | Some v => finishVolume (bucketName v) false
      end
    else
      s <- get ;;
      match volumeStore s with
      | [] =>
          ns <- getNamespaceName ;;
          bucketName <- createBucket ns ;;
          finishVolume bucketName false
      | first :: _ => ret (gcsVolumePtr (Some first))
      end
  else if String.eqb volType storageframework.DynamicPV then
    ret nilVolume
  else
    failf ("Unsupported volType:" +:+ volType +:+ " is specified").

(** The type assertion of [volume] to a pointer to [gcsVolume], in its
    two-valued form: the pointer when the value is one, nil otherwise. *)
Definition asGcsVolume (volume : TestVolume) : option gcsVolume :=
  match volume with
  | gcsVolumePtr v => v
  | nilVolume | otherVolume => None
  end.

(** [GetVolume] returns the attributes of a pre-provisioned volume and
    its two flags; reading a field of a nil volume panics. *)
Definition GetVolume : M (gmap string string * bool * bool) :=
  volume <- CreateVolume storageframework.PreprovisionedPV ;;
  match asGcsVolume volume with
  | None => panic
  | Some gv =>
      ret ({[ "bucketName" := bucketName gv;
              "mountOptions" := mountOptions gv ]},
           shared gv, readOnly gv)
  end.

(** [v1.CSIPersistentVolumeSource], by the fields that the driver sets. *)
Record CSIPersistentVolumeSource : Type := {
  Driver : string;
  VolumeHandle : string;
  VolumeAttributes : gmap string string;
  ReadOnly : bool
}.

(** The result is the first of the two that Go returns; the second, the
    node affinity, is always nil.  [None] is a panic. *)
Definition GetPersistentVolumeSource (readOnly : bool) (volume : TestVolume)
  : option CSIPersistentVolumeSource :=
  match asGcsVolume volume with
  | None => None
  | Some gv =>
      Some {| Driver := DefaultName;
              VolumeHandle := bucketName gv;
              VolumeAttributes := {[ "mountOptions" := mountOptions gv ]};
              ReadOnly := readOnly |}
  end.

(** [storagev1.StorageClass], by the fields that the driver sets. *)
Record StorageClass : Type := {
  GenerateName : string;
  Provisioner : string;
  MountOptions : list string;
  Parameters : gmap string string;
  VolumeBindingMode : option string
}.

Definition GetDynamicProvisionStorageClass
           (config : option storageframework.PerTestConfig)
  : option StorageClass :=
  match config with
  | None => None
  | Some config =>
      let mountOptions := ["debug_gcs"; "debug_fuse"; "debug_fs"] in
      let mountOptions :=
        if String.eqb (storageframework.Prefix config)
                      (specs.NonRootVolumePrefix k)
        then mountOptions ++ ["uid=1001"; "gid=3003"]
        else if String.eqb (storageframework.Prefix config)
                           (specs.InvalidMountOptionsVolumePrefix k)
        then mountOptions ++ ["invalid-option"]
        else mountOptions in
      Some {| GenerateName := "gcsfuse-csi-dynamic-test-sc-";
              Provisioner := DefaultName;
              MountOptions := mountOptions;
              Parameters :=
                {[ "csi.storage.k8s.io/provisioner-secret-name" :=
                     specs.K8sSecretName k;
                   "csi.storage.k8s.io/provisioner-secret-namespace" :=
                     "${pvc.namespace}" ]};
              VolumeBindingMode := Some "WaitForFirstConsumer" |}
  end.

(** The first two statements of the cleanup that [PrepareTest] defers:
    delete the bucket of every stored volume, then empty the store. *)
Fixpoint deleteBuckets (vs : list gcsVolume) : M unit :=
  match vs with
  | [] => ret tt
  | v :: vs' =>
      deleteBucket (serviceAccountNamespace v) (bucketName v) ;;;
      deleteBuckets vs'
  end.


(** [SkipUnsupportedTest] skips the patterns of inline and of generic
    ephemeral volumes. *)
Definition SkipUnsupportedTest (volType : string) : bool :=
  String.eqb volType storageframework.InlineVolume
  || String.eqb volType storageframework.GenericEphemeralVolume.

End Driver.

End e2etest.

(** Notions in which the properties of the test driver are stated, and
    sample values of its parameters. *)
Module e2eNotions.

Import fmt e2etest.

(** The state that an outcome leaves. *)
Definition stateOf {A : Type} (o : Outcome A) : State :=
  match o with
  | Done _ s => s
  | Failf _ s => s
  | Panic s => s
  end.

(** [s'] comes after [s]: the store and the effects of [s] are the
    beginning of those of [s'], and the world has not taken back an
    answer. *)
Definition extends (s s' : State) : Prop :=
  (exists added, volumeStore s' = volumeStore s ++ added) /\
  (exists done, effects s' = effects s ++ done) /\
  answers s <= answers s'.

(** The test configuration is there, with its framework and the
    namespace of the framework. *)
Definition wired (s : State) : Prop :=
  exists prefix ns,
    config s
    = Some {| storageframework.Prefix := prefix;
              storageframework.Framework_ :=
                Some {| storageframework.Namespace_ :=
                          Some {| storageframework.Name := ns |} |} |}.

(** No stored volume is shared or read-only. *)
Definition plain (v : gcsVolume) : Prop :=
  shared v = false /\ readOnly v = false.

(** [s'] has the store and the configuration of [s]. *)
Definition frames (s s' : State) : Prop :=
  config s' = config s /\ volumeStore s' = volumeStore s.

(** A computation only ever adds to the store and to the effects,
    however it ends. *)
Definition Extends {A : Type} (m : M A) : Prop :=
  forall s, extends s (stateOf (m s)).

(** A computation leaves the store and the configuration alone. *)
Definition Frames {A : Type} (m : M A) : Prop :=
  forall s, frames s (stateOf (m s)).

(** The invariant of a sound driver: the test configuration is there
    with its framework and namespace, and no stored volume is shared or
    read-only. *)
Definition sound (s : State) : Prop :=
  wired s /\ Forall plain (volumeStore s).

(** [m], started in a sound state, does not panic, leaves a sound state
    however it ends, and returns a value with [Q]. *)
Definition Safe {A : Type} (m : M A) (Q : A -> Prop) : Prop :=
  forall s, sound s ->
    match m s with
    | Done a s' => sound s' /\ Q a
    | Failf _ s' => sound s'
    | Panic _ => False
    end.

(** A volume that [finishVolume] returns is there and plain. *)
Definition plainVolume (vol : TestVolume) : Prop :=
  exists v, vol = gcsVolumePtr (Some v) /\ plain v.


(** The prefix is none of the four that the first switch of
    [CreateVolume] names. *)
Definition ordinaryPrefix (k : specs.Constants) (prefix : string) : Prop :=
  prefix <> specs.FakeVolumePrefix k /\
  prefix <> specs.ForceNewBucketPrefix k /\
  prefix <> specs.MultipleBucketsPrefix k /\
  prefix <> specs.SameBucketDifferentDirPrefix k.

(** Sample constants, pairwise distinct. *)
Definition constants : specs.Constants :=
  {| specs.FakeVolumePrefix := "fake-volume";
     specs.ForceNewBucketPrefix := "force-new-bucket";
     specs.MultipleBucketsPrefix := "multiple-buckets";
     specs.SameBucketDifferentDirPrefix := "same-bucket-different-dir";
     specs.NonRootVolumePrefix := "non-root-volume";
     specs.InvalidMountOptionsVolumePrefix := "invalid-mount-options-volume";
     specs.ImplicitDirsVolumePrefix := "implicit-dirs-volume";
     specs.ImplicitDirsPath := "implicit-dir";
     specs.K8sServiceAccountName := "test-sa";
     specs.K8sSecretName := "test-secret" |}.

(** A world in which every call succeeds; the [n]-th answer names a new
    bucket after [n]. *)
Definition fresh (n : nat) : string :=
  "bucket-" +:+ NilEmpty.string_of_uint (Nat.to_uint n).

Definition cloud : World :=
  {| NewString := fresh;
     GetProjectID := "test-project";
     GetTokenSourceFromK8sServiceAccount := fun _ ns sa _ =>
       inl {| tokenSourceID := ns +:+ "/" +:+ sa |};
     SetupService := fun _ ts => inl {| serviceID := tokenSourceID ts |};
     CreateBucket := fun _ _ bucket => inl bucket;
     DeleteBucket := fun _ _ _ => None;
     Create := fun _ _ => None;
     Remove := fun _ _ => None;
     CombinedOutput := fun _ _ => ("", None) |}.

(** A world in which buckets are created but no bucket can be deleted. *)
Definition cloudKeeping : World :=
  {| NewString := fresh;
     GetProjectID := "test-project";
     GetTokenSourceFromK8sServiceAccount := fun _ ns sa _ =>
       inl {| tokenSourceID := ns +:+ "/" +:+ sa |};
     SetupService := fun _ ts => inl {| serviceID := tokenSourceID ts |};
     CreateBucket := fun _ _ bucket => inl bucket;
     DeleteBucket := fun _ _ _ => Some (errorString "bucket is not empty");
     Create := fun _ _ => None;
     Remove := fun _ _ => None;
     CombinedOutput := fun _ _ =>
       ("CommandException: no such bucket", Some (errorString "exit status 1")) |}.

(** The state of a driver that has just been initialised, for a test in
    the namespace [ns] with the prefix [prefix]. *)
Definition initial (prefix ns : string) : State :=
  {| volumeStore := [];
     config :=
       Some {| storageframework.Prefix := prefix;
               storageframework.Framework_ :=
                 Some {| storageframework.Namespace_ :=
                           Some {| storageframework.Name := ns |} |} |};
     answers := 0;
     effects := [] |}.

End e2eNotions.

(** ** The vocabulary of the specification *)

(** The specification describes the pattern and the image reference in
    words; these definitions spell the words out, for the theorems to
    compare them with the program. *)

Module Vocabulary.

Import Bytes.

(** A decimal digit. *)
Definition isDigit (c : ascii) : bool := regexp.inRange "0" "9" c.

(** The six machine families that the specification lists. *)
Definition families : list string :=
  ["a3"; "a4"; "ct5l"; "ct5lp"; "ct5p"; "ct6e"].

(** The whole string is [projects/<digits>/machineTypes/<family>-<rest>]. *)
Definition AcceleratedForm (machineType : string) : Prop :=
  exists project family rest,
    project <> "" /\
    all isDigit project = true /\
    In family families /\
    machineType =
      "projects/" +:+ project +:+ "/machineTypes/" +:+ family +:+ "-" +:+ rest.

(** The text of [s] before its first byte [sep]; all of [s] when [sep]
    does not occur. *)
Fixpoint before (sep : ascii) (s : string) : string :=
  match s with
  | EmptyString => ""
  | String c s' => if Ascii.eqb c sep then "" else String c (before sep s')
  end.

Definition differs (sep c : ascii) : bool := negb (Ascii.eqb c sep).

(** The request for the machine type as the environment constructs it,
    and the answer to it once it carries the flavor header. *)
Definition machineTypeURL : string :=
  "http://metadata.google.internal/computeMetadata/v1/instance/machine-type".

Definition constructed (w : MetadataPrefetch.World) : http.Request + fmt.error :=
  MetadataPrefetch.NewRequestWithContext w http.MethodGet machineTypeURL.

Definition answered (w : MetadataPrefetch.World) (req : http.Request)
  : MetadataPrefetch.Call (http.Response + fmt.error) :=
  MetadataPrefetch.DefaultClient_Do w
    (http.Header_Set req "Metadata-Flavor" "Google").

(** The four ways in which the fetch of the machine type fails, each with
    the error that reports it: the request cannot be constructed, the
    transport fails, the status of the response is not OK, the body cannot
    be read to its end. *)
Inductive FetchFailure (w : MetadataPrefetch.World) : fmt.error -> Prop :=
| RequestNotConstructed e :
    constructed w = inr e ->
    FetchFailure w (fmt.Errorf_w "failed to create request: " e)
| TransportFailed req e :
    constructed w = inl req ->
    answered w req = MetadataPrefetch.Returns (inr e) ->
    FetchFailure w (fmt.Errorf_w "failed to get machine type: " e)
| StatusNotOK req resp :
    constructed w = inl req ->
    answered w req = MetadataPrefetch.Returns (inl resp) ->
    http.StatusCode resp <> 200%Z ->
    FetchFailure w
      (fmt.Errorf_v "unexpected status code: " (http.StatusCode resp))
| BodyNotRead req resp e :
    constructed w = inl req ->
    answered w req = MetadataPrefetch.Returns (inl resp) ->
    http.StatusCode resp = 200%Z ->
    io.failure (http.Body resp) = Some e ->
    FetchFailure w (fmt.Errorf_w "failed to read response body: " e).

(** The response is OK and its body reads to the end as [body]. *)
Definition FetchSuccess (w : MetadataPrefetch.World) (body : string) : Prop :=
  exists req resp,
    constructed w = inl req /\
    answered w req = MetadataPrefetch.Returns (inl resp) /\
    http.StatusCode resp = 200%Z /\
    io.failure (http.Body resp) = None /\
    io.data (http.Body resp) = body.

(** A container is the sidecar of the image repository [image]: it has
    the name of the contract, and the text of its image reference before
    the first colon is [image]. *)
Definition isSidecarOf (image : string) (c : v1.Container.t) : Prop :=
  v1.Container.Name c = Webhook.SidecarContainerName /\
  before ":" (v1.Container.Image c) = image.

(** A volume mount is the one of the contract. *)
Definition isContractMount (m : v1.VolumeMount.t) : Prop :=
  v1.VolumeMount.Name m = Webhook.SidecarContainerVolumeName /\
  v1.VolumeMount.MountPath m = Webhook.SidecarContainerVolumeMountPath.

Definition carriesContractMount (c : v1.Container.t) : Prop :=
  exists m, In m (v1.Container.VolumeMounts c) /\ isContractMount m.

(** Some volume of the pod has the name of the contract and an
    empty-directory source. *)
Definition hasContractVolume (vs : list v1.Volume.t) : Prop :=
  exists v,
    In v vs /\
    v1.Volume.Name v = Webhook.SidecarContainerVolumeName /\
    v1.VolumeSource.EmptyDir (v1.Volume.VolumeSource v) <> None.

(** Some sidecar of [image] among the containers carries the mount. *)
Definition someSidecarMounted (image : string) (cs : list v1.Container.t)
  : Prop :=
  exists c, In c cs /\ isSidecarOf image c /\ carriesContractMount c.

(** The first sidecar of [image] among the containers carries the mount. *)
Definition firstSidecarMounted (image : string) (cs : list v1.Container.t)
  : Prop :=
  exists pre c post,
    cs = pre ++ c :: post /\
    (forall x, In x pre -> ~ isSidecarOf image x) /\
    isSidecarOf image c /\
    carriesContractMount c.

(** Two containers differ at most in what follows the first colon of
    their image references (the tag), and in fields that the validator
    does not read. *)
Definition sameButTag (c c' : v1.Container.t) : Prop :=
  v1.Container.Name c = v1.Container.Name c' /\
  before ":" (v1.Container.Image c) = before ":" (v1.Container.Image c') /\
  v1.Container.VolumeMounts c = v1.Container.VolumeMounts c'.

(** The container has the name of the sidecar. *)
Definition namedSidecar (c : v1.Container.t) : bool :=
  String.eqb (v1.Container.Name c) Webhook.SidecarContainerName.

(** An event is the start of a command. *)
Definition isStart (e : MetadataPrefetch.Event) : bool :=
  match e with
  | MetadataPrefetch.Start _ _ => true
  | MetadataPrefetch.Log _ => false
  end.

End Vocabulary.

(** ** Sample inputs *)

Module Samples.

Import fmt MetadataPrefetch.

Definition request (method url : string) : http.Request :=
  {| http.Method := method; http.URL := url; http.Header := ∅ |}.

(** A world whose metadata server answers [status] with [body], read
    with the outcome [failure]; the variable of the override holds
    [override]; the command starts and ends well over two directories and
    a file. *)
Definition worldAnswering (status : Z) (body : string)
           (failure : option error) (override : string) : World :=
  {| NewRequestWithContext := fun method url => inl (request method url);
     DefaultClient_Do := fun _ =>
       Returns (inl {| http.StatusCode := status;
                       http.Body := {| io.data := body;
                                       io.failure := failure |} |});
     Getenv := fun name =>
       if String.eqb name "USER_ENABLED_METADATA_PREFETCH" then override
       else "";
     ReadDir := fun _ =>
       ([ {| Name := "bucket-a"; IsDir := true |};
          {| Name := "notes.txt"; IsDir := false |};
          {| Name := "bucket-b"; IsDir := true |} ], None);
     Cmd_Start := fun _ _ => None;
     Cmd_Wait := Returns None |}.

(** A world whose metadata server cannot be reached. *)
Definition worldUnreachable (override : string) : World :=
  {| NewRequestWithContext := fun method url => inl (request method url);
     DefaultClient_Do := fun _ =>
       Returns (inr (errorString "dial tcp: connection refused"));
     Getenv := fun name =>
       if String.eqb name "USER_ENABLED_METADATA_PREFETCH" then override
       else "";
     ReadDir := fun _ => ([], None);
     Cmd_Start := fun _ _ => None;
     Cmd_Wait := Returns None |}.


(** A world in which the listing of the mount root fails and the command,
    once started, never ends. *)
Definition worldHanging (override : string) : World :=
  {| NewRequestWithContext := fun method url => inl (request method url);
     DefaultClient_Do := fun _ =>
       Returns (inr (errorString "dial tcp: connection refused"));
     Getenv := fun name =>
       if String.eqb name "USER_ENABLED_METADATA_PREFETCH" then override
       else "";
     ReadDir := fun _ => ([], Some (errorString "permission denied"));
     Cmd_Start := fun _ _ => None;
     Cmd_Wait := Blocks |}.

Import v1.

Definition mount (name path : string) : VolumeMount.t :=
  {| VolumeMount.Name := name; VolumeMount.MountPath := path |}.

Definition container (name image : string) (mounts : list VolumeMount.t)
  : Container.t :=
  {| Container.Name := name;
     Container.Image := image;
     Container.ImagePullPolicy := "";
     Container.SecurityContext := None;
     Container.Args := [];
     Container.Resources :=
       {| ResourceRequirements.Limits := ∅;
          ResourceRequirements.Requests := ∅ |};
     Container.VolumeMounts := mounts |}.

Definition emptyDirVolume (name : string) : Volume.t :=
  {| Volume.Name := name;
     Volume.VolumeSource :=
       {| VolumeSource.HostPath := None;
          VolumeSource.EmptyDir :=
            Some {| EmptyDirVolumeSource.Medium := "";
                    EmptyDirVolumeSource.SizeLimit := None |} |} |}.

Definition hostPathVolume (name path : string) : Volume.t :=
  {| Volume.Name := name;
     Volume.VolumeSource :=
       {| VolumeSource.HostPath := Some {| HostPathVolumeSource.Path := path |};
          VolumeSource.EmptyDir := None |} |}.

Definition pod (cs : list Container.t) (vs : list Volume.t) : Pod.t :=
  {| Pod.Spec := {| PodSpec.Volumes := vs; PodSpec.Containers := cs |} |}.

Definition contractMount : VolumeMount.t :=
  mount Webhook.SidecarContainerVolumeName
        Webhook.SidecarContainerVolumeMountPath.

(** The sidecar of image [repoX:v1] with the mount of the contract, the
    same without the mount, and a container of the same name from another
    image. *)
Definition sidecar : Container.t :=
  container Webhook.SidecarContainerName "repoX:v1" [contractMount].

Definition sidecarUnmounted : Container.t :=
  container Webhook.SidecarContainerName "repoX:v1" [].

Definition sidecarOtherImage : Container.t :=
  container Webhook.SidecarContainerName "other:v1" [].

Definition workload : Container.t :=
  container "app" "nginx:1.25" [mount "data" "/data"].

Definition contractVolume : Volume.t :=
  emptyDirVolume Webhook.SidecarContainerVolumeName.

Definition config : Webhook.Config :=
  {| Webhook.ContainerImage := "gcr.io/gke-release/gcs-fuse-csi-driver-sidecar-mounter";
     Webhook.ImageVersion := "v0.1.4";
     Webhook.ImagePullPolicy := "IfNotPresent";
     Webhook.CPULimit := resource.MustParse "250m";
     Webhook.MemoryLimit := resource.MustParse "256Mi";
     Webhook.EphemeralStorageLimit := resource.MustParse "5Gi" |}.

End Samples.

(* ===================================================================== *)
(** * Part II: the properties *)
(* ===================================================================== *)

(** ** Facts about byte strings *)

Module BytesFacts.

Import Bytes.

Lemma app_empty_r (s : string) : s +:+ "" = s.
Proof. induction s as [|c s IH]; simpl; [reflexivity | now rewrite IH]. Qed.

Lemma app_assoc (a b c : string) : (a +:+ b) +:+ c = a +:+ (b +:+ c).
Proof. induction a as [|x a IH]; simpl; [reflexivity | now rewrite IH]. Qed.

Lemma length_app (a b : string) :
  String.length (a +:+ b) = String.length a + String.length b.
Proof. induction a as [|x a IH]; simpl; [reflexivity | now rewrite IH]. Qed.

(** A string that is its own proper extension on the left is impossible:
    [p +:+ s = s] forces [p] to be empty. *)
Lemma app_same_r (p s : string) : p +:+ s = s -> p = "".
Proof.
  intros H. apply (f_equal String.length) in H. rewrite length_app in H.
  destruct p; [reflexivity | simpl in H; lia].
Qed.

Lemma app_inv_head (p a b : string) : p +:+ a = p +:+ b -> a = b.
Proof.
  induction p as [|c p IH]; simpl; intros H; [exact H|].
  injection H as H. auto.
Qed.

Lemma stripPrefix_Some (p s r : string) :
  stripPrefix p s = Some r <-> s = p +:+ r.
Proof.
  revert s. induction p as [|a p IH]; intros s; simpl.
  - split; [intros [= ->] | intros ->]; reflexivity.
  - destruct s as [|b s].
    + split; discriminate.
    + destruct (Ascii.eqb_spec a b) as [->|Hne].
      * rewrite IH. split; [intros -> | intros [= ->]]; reflexivity.
      * split; [discriminate | intros [= -> _]; contradiction].
Qed.

Lemma stripPrefix_app (p r : string) : stripPrefix p (p +:+ r) = Some r.
Proof. now apply stripPrefix_Some. Qed.

Lemma all_app (f : ascii -> bool) (a b : string) :
  all f (a +:+ b) = all f a && all f b.
Proof.
  induction a as [|c a IH]; simpl; [reflexivity|].
  rewrite IH. now rewrite andb_assoc.
Qed.

Lemma length_explode (s : string) : length (explode s) = String.length s.
Proof. induction s as [|c s IH]; simpl; [reflexivity | now rewrite IH]. Qed.

End BytesFacts.

(** ** The matcher decides what a regular expression denotes *)

Module regexpFacts.

Import Bytes BytesFacts regexp.

Create HintDb regexp.
#[local] Hint Constructors Matches : regexp.

(** A match consumes a prefix; when the prefix is empty the position is
    unchanged, otherwise the new position is not the beginning. *)
Local Ltac compose_prefixes IH1 IH2 :=
  let p1 := fresh "p" in
  let p2 := fresh "p" in
  destruct IH1 as (p1 & -> & ->), IH2 as (p2 & -> & ->);
  exists (p1 +:+ p2); rewrite app_assoc; split; [reflexivity|];
  destruct p1; simpl; rewrite ?andb_true_r, ?andb_false_r; reflexivity.

Lemma Matches_consumes re bot s bot' s' :
  Matches re bot s bot' s' ->
  exists p, s = p +:+ s' /\ bot' = bot && isEmpty p.
Proof.
  induction 1.
  - exists ""; split; [reflexivity | now rewrite andb_true_r].
  - exists lit; split; reflexivity.
  - exists (String c ""); split; [reflexivity | now rewrite andb_false_r].
  - exists (String c ""); split; [reflexivity | now rewrite andb_false_r].
  - exists ""; split; reflexivity.
  - exists ""; split; [reflexivity | now rewrite andb_true_r].
  - assumption.
  - exists ""; split; [reflexivity | now rewrite andb_true_r].
  - compose_prefixes IHMatches1 IHMatches2.
  - compose_prefixes IHMatches1 IHMatches2.
  - compose_prefixes IHMatches1 IHMatches2.
  - assumption.
  - assumption.
Qed.

Lemma Matches_length re bot s bot' s' :
  Matches re bot s bot' s' -> String.length s' <= String.length s.
Proof.
  intros H. apply Matches_consumes in H as (p & -> & _).
  rewrite length_app. lia.
Qed.

Lemma Matches_no_progress re bot s bot' s' :
  Matches re bot s bot' s' ->
  ~ String.length s' < String.length s -> s' = s /\ bot' = bot.
Proof.
  intros H Hlen. apply Matches_consumes in H as (p & -> & ->).
  rewrite length_app in Hlen.
  destruct p; simpl in *; [now rewrite andb_true_r | lia].
Qed.

(** ** The matcher decides the denotation *)

Section StarLoop.
Variable re : Regexp.
Variable step : bool -> string -> Cont -> bool.

Hypothesis step_sound : forall bot s k,
  step bot s k = true ->
  exists bot' s', Matches re bot s bot' s' /\ k bot' s' = true.

Hypothesis step_complete : forall bot s k bot' s',
  Matches re bot s bot' s' -> k bot' s' = true -> step bot s k = true.

Lemma starLoop_sound k fuel bot s :
  starLoop step k fuel bot s = true ->
  exists bot' s', Matches (OpStar re) bot s bot' s' /\ k bot' s' = true.
Proof.
  revert bot s. induction fuel as [|fuel IH]; intros bot s; simpl.
  - rewrite orb_false_r. intros Hk. exists bot, s. auto with regexp.
  - intros H. apply orb_true_iff in H as [Hk|H].
    + exists bot, s. auto with regexp.
    + apply step_sound in H as (bot1 & s1 & Hm & H).
      apply andb_true_iff in H as [_ H].
      apply IH in H as (bot2 & s2 & Hstar & Hk).
      exists bot2, s2. eauto with regexp.
Qed.

Lemma starLoop_complete k bot s bot' s' :
  Matches (OpStar re) bot s bot' s' ->
  k bot' s' = true ->
  forall fuel, String.length s < fuel ->
  starLoop step k fuel bot s = true.
Proof.
  intros Hm. remember (OpStar re) as star eqn:Hstar.
  induction Hm as [ | | | | | | | re0 bot s
                  | re0 bot s bot1 s1 bot2 s2 Hone _ Hrest IHrest
                  | | | | ]; try discriminate Hstar.
  - intros Hk [|fuel] _; simpl; now rewrite Hk.
  - injection Hstar as ->. intros Hk fuel Hfuel.
    destruct (Nat.ltb_spec (String.length s1) (String.length s)) as [Hlt|Hge].
    + destruct fuel as [|fuel]; [lia|]. simpl.
      apply orb_true_iff. right.
      apply (step_complete _ _ _ _ _ Hone).
      apply andb_true_iff. split; [now apply Nat.ltb_lt|].
      apply IHrest; [reflexivity | assumption | lia].
    + destruct (Matches_no_progress _ _ _ _ _ Hone) as [-> ->]; [lia|].
      now apply IHrest.
Qed.
End StarLoop.

Lemma matchk_sound re : forall bot s k,
  matchk re bot s k = true ->
  exists bot' s', Matches re bot s bot' s' /\ k bot' s' = true.
Proof.
  induction re as [ | lit | lo hi | | | | re IH | re IH | re IH
                  | re1 IH1 re2 IH2 | re1 IH1 re2 IH2 ];
    intros bot s k; cbn [matchk].
  - intros Hk. exists bot, s. auto with regexp.
  - destruct (stripPrefix lit s) as [s'|] eqn:Hp; [|discriminate].
    apply stripPrefix_Some in Hp as ->. intros Hk.
    eexists _, _. split; [apply M_Literal | exact Hk].
  - destruct s as [|c s]; [discriminate|].
    intros H. apply andb_true_iff in H as [Hc Hk].
    exists false, s. auto with regexp.
  - destruct s as [|c s]; [discriminate|].
    intros H. apply andb_true_iff in H as [Hc Hk].
    exists false, s. auto with regexp.
  - intros H. apply andb_true_iff in H as [-> Hk].
    exists true, s. auto with regexp.
  - intros H. apply andb_true_iff in H as [He Hk].
    destruct s; [|discriminate]. exists bot, "". auto with regexp.
  - intros H. apply IH in H as (bot' & s' & Hm & Hk).
    exists bot', s'. auto with regexp.
  - intros H. eapply starLoop_sound in H; [exact H | exact IH].
  - intros H. apply IH in H as (bot1 & s1 & Hm & H).
    eapply starLoop_sound in H as (bot2 & s2 & Hstar & Hk); [|exact IH].
    exists bot2, s2. eauto with regexp.
  - intros H. apply IH1 in H as (bot1 & s1 & Hm1 & H).
    apply IH2 in H as (bot2 & s2 & Hm2 & Hk).
    exists bot2, s2. eauto with regexp.
  - intros H. apply orb_true_iff in H as [H|H].
    + apply IH1 in H as (bot' & s' & Hm & Hk). exists bot', s'. auto with regexp.
    + apply IH2 in H as (bot' & s' & Hm & Hk). exists bot', s'. auto with regexp.
Qed.

Lemma matchk_complete re bot s bot' s' :
  Matches re bot s bot' s' ->
  forall k, k bot' s' = true -> matchk re bot s k = true.
Proof.
  revert bot s bot' s'.
  induction re as [ | lit | lo hi | | | | re IH | re IH | re IH
                  | re1 IH1 re2 IH2 | re1 IH1 re2 IH2 ];
    intros bot s bot' s' Hm k Hk; cbn [matchk].
  - inversion Hm; subst. exact Hk.
  - inversion Hm; subst. now rewrite stripPrefix_app.
  - inversion Hm; subst. apply andb_true_iff. auto.
  - inversion Hm; subst. apply andb_true_iff. auto.
  - inversion Hm; subst. exact Hk.
  - inversion Hm; subst. exact Hk.
  - inversion Hm; subst. eauto.
  - eapply starLoop_complete; eauto.
  - inversion Hm as [ | | | | | | | | | re0 b0 s0 bot1 s1 b2 s2 Hone Hrest
                    | | | ]; subst.
    apply (IH _ _ _ _ Hone).
    eapply starLoop_complete; eauto.
  - inversion Hm; subst. eauto.
  - apply orb_true_iff. inversion Hm; subst; eauto.
Qed.

Theorem matchk_spec re bot s k :
  matchk re bot s k = true <->
  exists bot' s', Matches re bot s bot' s' /\ k bot' s' = true.
Proof.
  split; [apply matchk_sound|].
  intros (bot' & s' & Hm & Hk). eapply matchk_complete; eauto.
Qed.

(** [MatchString]: some suffix of the subject starts with a match. *)
Lemma searchFrom_spec re : forall s bot,
  searchFrom re bot s = true <->
  exists pre rest bot' s',
    s = pre +:+ rest /\
    Matches re (bot && isEmpty pre) rest bot' s'.
Proof.
  induction s as [|c s IH]; intros bot; simpl.
  - rewrite orb_false_r, matchk_spec. split.
    + intros (bot' & s' & Hm & _). exists "", "", bot', s'.
      now rewrite andb_true_r.
    + intros (pre & rest & bot' & s' & Heq & Hm).
      destruct pre; [|discriminate]. simpl in Heq. subst rest.
      rewrite andb_true_r in Hm. eauto.
  - rewrite orb_true_iff, matchk_spec, IH. split.
    + intros [(bot' & s' & Hm & _) | (pre & rest & bot' & s' & -> & Hm)].
      * exists "", (String c s), bot', s'. now rewrite andb_true_r.
      * exists (String c pre), rest, bot', s'.
        rewrite andb_false_r. simpl in Hm. auto.
    + intros (pre & rest & bot' & s' & Heq & Hm).
      destruct pre as [|c' pre]; simpl in Heq.
      * subst rest. rewrite andb_true_r in Hm. left. eauto.
      * injection Heq as -> ->. right.
        exists pre, rest, bot', s'. rewrite andb_false_r in Hm. auto.
Qed.

(** ** Inversion principles, one per operator of the pattern *)

Lemma Matches_literal_inv lit bot s bot' s' :
  Matches (OpLiteral lit) bot s bot' s' ->
  s = lit +:+ s' /\ bot' = bot && isEmpty lit.
Proof. inversion 1; subst; auto. Qed.

Lemma Matches_begin_inv bot s bot' s' :
  Matches OpBeginText bot s bot' s' -> bot = true /\ bot' = true /\ s' = s.
Proof. inversion 1; subst; auto. Qed.

Lemma Matches_end_inv bot s bot' s' :
  Matches OpEndText bot s bot' s' -> s = "" /\ s' = "" /\ bot' = bot.
Proof. inversion 1; subst; auto. Qed.

Lemma Matches_capture_inv re bot s bot' s' :
  Matches (OpCapture re) bot s bot' s' -> Matches re bot s bot' s'.
Proof. inversion 1; subst; auto. Qed.

Lemma Matches_concat_inv re1 re2 bot s bot2 s2 :
  Matches (OpConcat re1 re2) bot s bot2 s2 ->
  exists bot1 s1, Matches re1 bot s bot1 s1 /\ Matches re2 bot1 s1 bot2 s2.
Proof. inversion 1; subst; eauto. Qed.

Lemma Matches_alternate_inv re1 re2 bot s bot' s' :
  Matches (OpAlternate re1 re2) bot s bot' s' ->
  Matches re1 bot s bot' s' \/ Matches re2 bot s bot' s'.
Proof. inversion 1; subst; auto. Qed.

Lemma Matches_plus_inv re bot s bot2 s2 :
  Matches (OpPlus re) bot s bot2 s2 ->
  exists bot1 s1,
    Matches re bot s bot1 s1 /\ Matches (OpStar re) bot1 s1 bot2 s2.
Proof. inversion 1; subst; eauto. Qed.

(** Repetition of an operator that reads exactly one byte satisfying
    [P]: the bytes read are a run of [P]. *)
Section OneByte.
Variable re : Regexp.
Variable P : ascii -> bool.

Hypothesis one_inv : forall bot s bot' s',
  Matches re bot s bot' s' -> exists c, s = String c s' /\ P c = true.
Hypothesis one_intro : forall c bot s,
  P c = true -> Matches re bot (String c s) false s.

Lemma Matches_star_run_inv bot s bot' s' :
  Matches (OpStar re) bot s bot' s' ->
  exists run, s = run +:+ s' /\ all P run = true.
Proof.
  intros Hm. remember (OpStar re) as star eqn:Hstar.
  induction Hm as [ | | | | | | | re0 bot s
                  | re0 bot s bot1 s1 bot2 s2 Hone _ Hrest IHrest
                  | | | | ]; try discriminate Hstar.
  - exists "". auto.
  - injection Hstar as ->.
    apply one_inv in Hone as (c & -> & Hc).
    destruct (IHrest eq_refl) as (run & -> & Hrun).
    exists (String c run). simpl. now rewrite Hc, Hrun.
Qed.

Lemma Matches_star_run run : forall bot s,
  all P run = true ->
  Matches (OpStar re) bot (run +:+ s) (bot && isEmpty run) s.
Proof.
  induction run as [|c run IH]; intros bot s; simpl.
  - intros _. rewrite andb_true_r. apply M_StarNil.
  - intros H. apply andb_true_iff in H as [Hc Hrun].
    rewrite andb_false_r. eapply M_StarCons; [now apply one_intro|].
    specialize (IH false s Hrun). simpl in IH. exact IH.
Qed.

Lemma Matches_plus_run_inv bot s bot' s' :
  Matches (OpPlus re) bot s bot' s' ->
  exists run, s = run +:+ s' /\ all P run = true /\ run <> "".
Proof.
  intros Hm. apply Matches_plus_inv in Hm as (bot1 & s1 & Hone & Hrest).
  apply one_inv in Hone as (c & -> & Hc).
  apply Matches_star_run_inv in Hrest as (run & -> & Hrun).
  exists (String c run). simpl. rewrite Hc, Hrun. repeat split.
  discriminate.
Qed.

Lemma Matches_plus_run run bot s :
  all P run = true -> run <> "" ->
  Matches (OpPlus re) bot (run +:+ s) false s.
Proof.
  destruct run as [|c run]; [congruence|]. simpl. intros H _.
  apply andb_true_iff in H as [Hc Hrun].
  eapply M_Plus; [now apply one_intro|].
  apply (Matches_star_run run false s Hrun).
Qed.
End OneByte.

Lemma Matches_charclass_inv lo hi bot s bot' s' :
  Matches (OpCharClass lo hi) bot s bot' s' ->
  exists c, s = String c s' /\ inRange lo hi c = true.
Proof. inversion 1; subst; eauto. Qed.

Lemma Matches_anychar_inv bot s bot' s' :
  Matches OpAnyCharNotNL bot s bot' s' ->
  exists c, s = String c s' /\ notNL c = true.
Proof. inversion 1; subst; eauto. Qed.

End regexpFacts.

(** ** Facts about [strings.Split] *)

Module stringsFacts.

Import Bytes strings Vocabulary.

(** With a separator of one byte, the first piece is the text before the
    first occurrence of that byte. *)
Lemma genSplit_head (sep : ascii) (s : string) :
  genSplit (String sep "") s 0 !! 0%nat = Some (before sep s).
Proof.
  induction s as [|c s IH]; [reflexivity|].
  cbn [genSplit stripPrefix before].
  rewrite (Ascii.eqb_sym sep c).
  destruct (Ascii.eqb c sep); [reflexivity|].
  destruct (genSplit (String sep "") s 0) as [|piece pieces];
    [discriminate IH|].
  injection IH as ->. reflexivity.
Qed.

Lemma Split_head (sep : ascii) (s : string) :
  Split s (String sep "") !! 0%nat = Some (before sep s).
Proof. apply genSplit_head. Qed.

(** [before] undoes the concatenation of a text free of the separator,
    the separator and anything. *)
Lemma before_app (sep : ascii) (repo tag : string) :
  all (differs sep) repo = true ->
  before sep (repo +:+ String sep tag) = repo.
Proof.
  induction repo as [|c repo IH]; simpl.
  - intros _. now rewrite Ascii.eqb_refl.
  - unfold differs at 1. intros H. apply andb_true_iff in H as [Hc Hrepo].
    apply negb_true_iff in Hc. rewrite Hc. now rewrite IH.
Qed.

Lemma before_all (sep : ascii) (s : string) :
  all (differs sep) s = true -> before sep s = s.
Proof.
  induction s as [|c s IH]; simpl; [reflexivity|].
  unfold differs at 1. intros H. apply andb_true_iff in H as [Hc Hs].
  apply negb_true_iff in Hc. rewrite Hc. now rewrite IH.
Qed.

End stringsFacts.

(** ** The machine-type pattern *)

Module PatternFacts.

Import Bytes BytesFacts regexp regexpFacts Vocabulary MetadataPrefetch.

(** The group of the six families, as it stands in the pattern. *)
Local Notation "'familyGroup'" :=
  (OpCapture
    (OpAlternate (OpLiteral "a3")
    (OpAlternate (OpLiteral "a4")
    (OpAlternate (OpLiteral "ct5l")
    (OpAlternate (OpLiteral "ct5lp")
    (OpAlternate (OpLiteral "ct5p")
                 (OpLiteral "ct6e")))))))
  (only parsing).

(** The syntax tree of [supportedMachineRegex] is the compiled pattern. *)
Lemma supportedMachineRegex_compiled :
  Compile "^projects/[0-9]+/machineTypes/(a3|a4|ct5l|ct5lp|ct5p|ct6e)-.*$"
  = Some supportedMachineRegex.
Proof. reflexivity. Qed.

Lemma M_Literal_nonempty c lit bot s :
  Matches (OpLiteral (String c lit)) bot (String c lit +:+ s) false s.
Proof.
  pose proof (M_Literal (String c lit) bot s) as H.
  simpl isEmpty in H. now rewrite andb_false_r in H.
Qed.

Lemma familyGroup_inv bot s bot' s' :
  Matches familyGroup bot s bot' s' ->
  exists family, In family families /\ s = family +:+ s'.
Proof.
  intros H. apply Matches_capture_inv in H.
  repeat (apply Matches_alternate_inv in H as [H|H]);
    apply Matches_literal_inv in H as [-> _];
    eexists; (split; [|reflexivity]); simpl; tauto.
Qed.

Lemma familyGroup_intro family bot s :
  In family families -> Matches familyGroup bot (family +:+ s) false s.
Proof.
  intros Hin. apply M_Capture. simpl in Hin.
  destruct Hin as [<-|[<-|[<-|[<-|[<-|[<-|[]]]]]]].
  - apply M_AltL.
    apply M_Literal_nonempty.
  - apply M_AltR, M_AltL.
    apply M_Literal_nonempty.
  - apply M_AltR, M_AltR, M_AltL.
    apply M_Literal_nonempty.
  - apply M_AltR, M_AltR, M_AltR, M_AltL.
    apply M_Literal_nonempty.
  - apply M_AltR, M_AltR, M_AltR, M_AltR, M_AltL.
    apply M_Literal_nonempty.
  - apply M_AltR, M_AltR, M_AltR, M_AltR, M_AltR.
    apply M_Literal_nonempty.
Qed.

(** What the pattern denotes: it matches from the beginning of the text
    only, up to its end, and the text has the form of a machine type of
    one of the six families with no line feed after the hyphen. *)
Lemma supportedMachineRegex_inv bot s bot' s' :
  Matches supportedMachineRegex bot s bot' s' ->
  bot = true /\ s' = "" /\
  exists project family rest,
    project <> "" /\
    all isDigit project = true /\
    In family families /\
    all notNL rest = true /\
    s = "projects/" +:+ project +:+ "/machineTypes/" +:+ family +:+ "-" +:+ rest.
Proof.
  unfold supportedMachineRegex. intros H.
  apply Matches_concat_inv in H as (b1 & s1 & Hbegin & H).
  apply Matches_begin_inv in Hbegin as (-> & -> & ->).
  apply Matches_concat_inv in H as (b2 & s2 & Hlit & H).
  apply Matches_literal_inv in Hlit as (-> & ->).
  apply Matches_concat_inv in H as (b3 & s3 & Hproject & H).
  apply (Matches_plus_run_inv _ isDigit (Matches_charclass_inv _ _))
    in Hproject as (project & -> & Hdigits & Hne).
  apply Matches_concat_inv in H as (b4 & s4 & Hlit & H).
  apply Matches_literal_inv in Hlit as (-> & ->).
  apply Matches_concat_inv in H as (b5 & s5 & Hfamily & H).
  apply familyGroup_inv in Hfamily as (family & Hin & ->).
  apply Matches_concat_inv in H as (b6 & s6 & Hlit & H).
  apply Matches_literal_inv in Hlit as (-> & ->).
  apply Matches_concat_inv in H as (b7 & s7 & Hrest & Hend).
  apply (Matches_star_run_inv _ notNL Matches_anychar_inv) in Hrest
    as (rest & -> & Hrest).
  apply Matches_end_inv in Hend as (-> & -> & ->).
  rewrite app_empty_r. repeat split.
  exists project, family, rest. auto.
Qed.

Lemma supportedMachineRegex_intro project family rest :
  project <> "" ->
  all isDigit project = true ->
  In family families ->
  all notNL rest = true ->
  Matches supportedMachineRegex true
    ("projects/" +:+ project +:+ "/machineTypes/" +:+ family +:+ "-" +:+ rest)
    false "".
Proof.
  intros Hne Hdigits Hin Hrest. unfold supportedMachineRegex.
  eapply M_Concat; [apply M_BeginText|].
  eapply M_Concat; [apply M_Literal_nonempty|].
  eapply M_Concat;
    [apply (Matches_plus_run _ isDigit); auto using M_CharClass|].
  eapply M_Concat; [apply M_Literal_nonempty|].
  eapply M_Concat; [apply familyGroup_intro, Hin|].
  eapply M_Concat; [apply M_Literal_nonempty|].
  rewrite <- (app_empty_r rest).
  eapply M_Concat;
    [apply (Matches_star_run _ notNL); auto using M_AnyCharNotNL|].
  simpl. apply M_EndText.
Qed.

(** [MatchString] of the pattern, in words. *)
Lemma supportedMachineRegex_MatchString (machineType : string) :
  MatchString supportedMachineRegex machineType = true <->
  exists project family rest,
    project <> "" /\
    all isDigit project = true /\
    In family families /\
    all notNL rest = true /\
    machineType =
      "projects/" +:+ project +:+ "/machineTypes/" +:+ family +:+ "-" +:+ rest.
Proof.
  unfold MatchString. rewrite searchFrom_spec. split.
  - intros (pre & body & bot' & s' & -> & H).
    apply supportedMachineRegex_inv in H as (Hbot & _ & H).
    destruct pre; [exact H | discriminate Hbot].
  - intros (project & family & rest & Hne & Hdigits & Hin & Hrest & ->).
    eexists "", _, false, "". split; [reflexivity|].
    now apply supportedMachineRegex_intro.
Qed.

Lemma supportedMachineRegex_form (machineType : string) :
  MatchString supportedMachineRegex machineType = true ->
  AcceleratedForm machineType.
Proof.
  intros H. apply supportedMachineRegex_MatchString in H
    as (project & family & rest & Hne & Hdigits & Hin & _ & ->).
  exists project, family, rest. auto.
Qed.

End PatternFacts.

(** ** The machine-type classifier and the prefetch policy *)

Module MetadataPrefetchSpec.

Import Bytes BytesFacts regexp regexpFacts fmt.
Import Vocabulary MetadataPrefetch PatternFacts Samples.

(** A digit is not a slash. *)
Lemma isDigit_not_slash (c : ascii) :
  isDigit c = true -> differs "/" c = true.
Proof.
  destruct c as [[] [] [] [] [] [] [] []]; vm_compute; congruence.
Qed.

Lemma digits_no_slash (s : string) :
  all isDigit s = true -> all (differs "/") s = true.
Proof.
  induction s as [|c s IH]; simpl; [reflexivity|].
  intros H. apply andb_true_iff in H as [Hc Hs].
  now rewrite (isDigit_not_slash c Hc), IH.
Qed.

(** Two texts free of slashes that are each followed by a slash in the
    same string are the same text. *)
Lemma segment_unique (a b x y : string) :
  all (differs "/") a = true ->
  all (differs "/") b = true ->
  a +:+ String "/" x = b +:+ String "/" y ->
  a = b /\ x = y.
Proof.
  revert b. induction a as [|c a IH]; intros [|d b]; simpl.
  - intros _ _ [= ->]. auto.
  - intros _ H [= <- _]. discriminate H.
  - intros H _ [= -> _]. discriminate H.
  - intros Ha Hb [= -> Heq].
    apply andb_true_iff in Ha as [_ Ha], Hb as [_ Hb].
    destruct (IH b Ha Hb Heq) as [-> ->]. auto.
Qed.

(** A string in which a segment free of slashes follows [projects/]
    matches only if that segment is the project number and what follows
    it starts with a family and a hyphen. *)
Lemma MatchString_segments (segment tail : string) :
  all (differs "/") segment = true ->
  MatchString supportedMachineRegex
    ("projects/" +:+ segment +:+ "/" +:+ tail) = true ->
  segment <> "" /\ all isDigit segment = true /\
  exists family rest,
    In family families /\
    tail = "machineTypes/" +:+ family +:+ "-" +:+ rest.
Proof.
  intros Hseg H.
  apply supportedMachineRegex_MatchString in H
    as (project & family & rest & Hne & Hdigits & Hin & _ & Heq).
  apply (app_inv_head "projects/") in Heq.
  apply segment_unique in Heq as [-> ->];
    [| assumption | now apply digits_no_slash].
  repeat split; [assumption.. |]. exists family, rest. auto.
Qed.

(** C5.  The classifier ([MatchString] of [supportedMachineRegex]) answers
    true for [projects/123/machineTypes/a3-highgpu-8g] and for
    [projects/1/machineTypes/ct5lp-hightpu-4t], false for
    [projects/123/machineTypes/n2-standard-4] and for the empty string.
    It has an answer for every string, and the answer is the one that the
    pattern denotes: the bound on the rounds of the matcher is never what
    makes an answer false. *)
Theorem C5_classifier_examples_and_totality :
  MatchString supportedMachineRegex
    "projects/123/machineTypes/a3-highgpu-8g" = true /\
  MatchString supportedMachineRegex
    "projects/1/machineTypes/ct5lp-hightpu-4t" = true /\
  MatchString supportedMachineRegex
    "projects/123/machineTypes/n2-standard-4" = false /\
  MatchString supportedMachineRegex "" = false /\
  forall machineType : string,
    exists answer : bool,
      MatchString supportedMachineRegex machineType = answer /\
      (answer = true <->
       exists pre rest bot' s',
         machineType = pre +:+ rest /\
         Matches supportedMachineRegex (isEmpty pre) rest bot' s').
Proof.
  repeat split; try reflexivity.
  intros machineType. eexists. split; [reflexivity|].
  unfold MatchString. rewrite searchFrom_spec. reflexivity.
Qed.

(** C10.  A string that the classifier accepts has, as a whole, the form
    [projects/<digits>/machineTypes/<family>-<rest>] with [<family>] one
    of a3, a4, ct5l, ct5lp, ct5p, ct6e.  When the segment after
    [projects/] is free of slashes, acceptance needs that segment to be a
    non-empty run of digits and the text after [machineTypes/] to start
    with one of the six families and a hyphen.  So a family that only
    starts with a listed token ([a35-x]), a missing hyphen ([a3]) and a
    project segment that is not a number are all refused. *)
Theorem C10_match_requires_whole_form :
  (forall machineType : string,
     MatchString supportedMachineRegex machineType = true ->
     AcceleratedForm machineType) /\
  (forall segment tail : string,
     all (differs "/") segment = true ->
     MatchString supportedMachineRegex
       ("projects/" +:+ segment +:+ "/" +:+ tail) = true ->
     segment <> "" /\ all isDigit segment = true /\
     exists family rest,
       In family families /\
       tail = "machineTypes/" +:+ family +:+ "-" +:+ rest) /\
  MatchString supportedMachineRegex "projects/123/machineTypes/a35-x" = false /\
  MatchString supportedMachineRegex "projects/123/machineTypes/a3" = false /\
  MatchString supportedMachineRegex "projects/abc/machineTypes/a3-x" = false /\
  MatchString supportedMachineRegex "projects/12a/machineTypes/a3-x" = false /\
  MatchString supportedMachineRegex "projects//machineTypes/a3-x" = false /\
  MatchString supportedMachineRegex "xprojects/123/machineTypes/a3-x" = false.
Proof.
  split; [exact supportedMachineRegex_form|].
  split; [exact MatchString_segments|].
  repeat split; reflexivity.
Qed.

Lemma C10_match_requires_whole_form_witness :
  MatchString supportedMachineRegex
    "projects/123/machineTypes/ct6e-standard-4t" = true /\
  AcceleratedForm "projects/123/machineTypes/ct6e-standard-4t" /\
  all (differs "/") "123" = true /\
  all isDigit "123" = true.
Proof.
  split; [reflexivity|].
  split.
  - apply (proj1 C10_match_requires_whole_form). reflexivity.
  - split; [reflexivity|].
    apply (proj1 (proj2 C10_match_requires_whole_form)
                 "123" "machineTypes/ct6e-standard-4t");
      reflexivity.
Defined.

(** C1.  Whatever the machine type, the decision is true under the
    override [TRUE] and false under the override [FALSE]; under any other
    override, the empty one included, it is the answer of the classifier.
    So it is true for an a3 machine and false for an n2 machine when the
    override is empty, and the comparison with the two literals is exact
    and sensitive to case. *)
Theorem C1_decision_by_override (machineType : string) :
  enablePrefetch "TRUE" machineType = true /\
  enablePrefetch "FALSE" machineType = false /\
  (forall val : string,
     val <> "TRUE" -> val <> "FALSE" ->
     enablePrefetch val machineType
     = MatchString supportedMachineRegex machineType) /\
  enablePrefetch "" machineType
  = MatchString supportedMachineRegex machineType /\
  enablePrefetch "" "projects/1/machineTypes/a3-x" = true /\
  enablePrefetch "" "projects/1/machineTypes/n2-x" = false /\
  enablePrefetch "true" machineType
  = MatchString supportedMachineRegex machineType /\
  enablePrefetch "False" machineType
  = MatchString supportedMachineRegex machineType /\
  enablePrefetch "TRUE " machineType
  = MatchString supportedMachineRegex machineType /\
  enablePrefetch " FALSE" machineType
  = MatchString supportedMachineRegex machineType.
Proof.
  repeat split; try reflexivity.
  intros val Htrue Hfalse. unfold enablePrefetch.
  apply String.eqb_neq in Htrue, Hfalse. now rewrite Htrue, Hfalse.
Qed.

Lemma C1_decision_by_override_witness :
  "auto" <> "TRUE" /\ "auto" <> "FALSE" /\
  enablePrefetch "auto" "projects/1/machineTypes/a4-highgpu-8g"
  = MatchString supportedMachineRegex "projects/1/machineTypes/a4-highgpu-8g".
Proof.
  split; [discriminate|]. split; [discriminate|].
  apply (proj1 (proj2 (proj2
           (C1_decision_by_override "projects/1/machineTypes/a4-highgpu-8g"))));
    discriminate.
Defined.

(** The fetch of the machine type, case by case. *)
Lemma getMachineType_cases (w : World) :
  (exists err, getMachineType w = Returns ("", Some err) /\ FetchFailure w err)
  \/ (exists body, getMachineType w = Returns (body, None) /\ FetchSuccess w body)
  \/ getMachineType w = Blocks.
Proof.
  unfold getMachineType.
  destruct (NewRequestWithContext w http.MethodGet _) as [req|e] eqn:Hreq.
  - destruct (DefaultClient_Do w _) as [[resp|e]|] eqn:Hdo.
    + destruct (Z.eqb_spec (http.StatusCode resp) http.StatusOK) as [Hok|Hnok];
        simpl negb; cbv iota.
      * unfold io.ReadAll.
        destruct (io.failure (http.Body resp)) as [e|] eqn:Hread.
        -- left. eexists. split; [reflexivity|].
           eapply BodyNotRead; eassumption.
        -- right. left. eexists. split; [reflexivity|].
           exists req, resp. auto.
      * left. eexists. split; [reflexivity|].
        eapply StatusNotOK; eassumption.
    + left. eexists. split; [reflexivity|].
      eapply TransportFailed; eassumption.
    + right. right. reflexivity.
  - left. eexists. split; [reflexivity|]. now apply RequestNotConstructed.
Qed.

Lemma FetchFailure_returns (w : World) (err : error) :
  FetchFailure w err -> getMachineType w = Returns ("", Some err).
Proof.
  intros H. unfold getMachineType.
  destruct H as [e H1 | req e H1 H2 | req resp H1 H2 H3
                | req resp e H1 H2 H3 H4];
    unfold constructed, answered, machineTypeURL in *; rewrite H1;
    try reflexivity; rewrite H2; try reflexivity.
  - apply Z.eqb_neq in H3. unfold http.StatusOK. now rewrite H3.
  - apply Z.eqb_eq in H3. unfold http.StatusOK, io.ReadAll.
    now rewrite H3, H4.
Qed.

Lemma FetchSuccess_returns (w : World) (body : string) :
  FetchSuccess w body -> getMachineType w = Returns (body, None).
Proof.
  intros (req & resp & H1 & H2 & H3 & H4 & <-). unfold getMachineType.
  unfold constructed, answered, machineTypeURL in *. rewrite H1, H2.
  apply Z.eqb_eq in H3. unfold http.StatusOK, io.ReadAll.
  now rewrite H3, H4.
Qed.

(** C6.  The fetch returns an error exactly in the four cases of
    [FetchFailure]: the request cannot be constructed, the transport
    fails, the status of the response is not 200, the body cannot be read
    to its end; the string it returns is then empty.  On a response with
    status 200 whose body reads to the end it returns the body and no
    error, and it returns no error in that case only. *)
Theorem C6_fetch_error_cases (w : World) :
  (forall machineType err,
     getMachineType w = Returns (machineType, Some err) <->
     machineType = "" /\ FetchFailure w err) /\
  (forall body,
     getMachineType w = Returns (body, None) <-> FetchSuccess w body).
Proof.
  split.
  - intros machineType err. split.
    + intros H.
      destruct (getMachineType_cases w)
        as [(err' & Hret & Hfail) | [(body & Hret & _) | Hret]];
        rewrite Hret in H; try discriminate H.
      injection H as <- <-. auto.
    + intros [-> Hfail]. now apply FetchFailure_returns.
  - intros body. split.
    + intros H.
      destruct (getMachineType_cases w)
        as [(err' & Hret & _) | [(body' & Hret & Hok) | Hret]];
        rewrite Hret in H; try discriminate H.
      injection H as <-. exact Hok.
    + apply FetchSuccess_returns.
Qed.

Lemma C6_fetch_error_cases_witness :
  getMachineType (worldAnswering 404 "not found" None "")
  = Returns ("", Some (Errorf_v "unexpected status code: " 404)) /\
  FetchFailure (worldAnswering 404 "not found" None "")
    (Errorf_v "unexpected status code: " 404) /\
  getMachineType
    (worldAnswering 200 "projects/12/machineTypes/a3-highgpu-8g" None "")
  = Returns ("projects/12/machineTypes/a3-highgpu-8g", None) /\
  FetchSuccess
    (worldAnswering 200 "projects/12/machineTypes/a3-highgpu-8g" None "")
    "projects/12/machineTypes/a3-highgpu-8g".
Proof.
  split; [reflexivity|]. split.
  - apply (proj1 (C6_fetch_error_cases (worldAnswering 404 "not found" None ""))
                 "" (Errorf_v "unexpected status code: " 404)).
    reflexivity.
  - split; [reflexivity|].
    apply (proj2 (C6_fetch_error_cases
                    (worldAnswering 200 "projects/12/machineTypes/a3-highgpu-8g"
                                    None ""))
                 "projects/12/machineTypes/a3-highgpu-8g").
    reflexivity.
Defined.

(** C9.  When the fetch returns an error, the string it returns is
    empty; the classifier refuses it, so the decision computed from it is
    false under every override but [TRUE]. *)
Theorem C9_error_implies_empty_machine_type
        (w : World) (machineType : string) (err : error) :
  getMachineType w = Returns (machineType, Some err) ->
  machineType = "" /\
  MatchString supportedMachineRegex machineType = false /\
  forall val : string,
    val <> "TRUE" -> enablePrefetch val machineType = false.
Proof.
  intros H.
  destruct (getMachineType_cases w)
    as [(err' & Hret & _) | [(body & Hret & _) | Hret]];
    rewrite Hret in H; try discriminate H.
  injection H as <- _. repeat split.
  intros val Hval. unfold enablePrefetch.
  apply String.eqb_neq in Hval. rewrite Hval.
  now destruct (String.eqb val "FALSE").
Qed.

Lemma C9_error_implies_empty_machine_type_witness :
  getMachineType (worldUnreachable "")
  = Returns ("", Some (Errorf_w "failed to get machine type: "
                         (errorString "dial tcp: connection refused"))) /\
  MatchString supportedMachineRegex "" = false /\
  enablePrefetch "" "" = false.
Proof.
  split; [reflexivity|].
  destruct (C9_error_implies_empty_machine_type
              (worldUnreachable "") ""
              (Errorf_w "failed to get machine type: "
                 (errorString "dial tcp: connection refused"))
              eq_refl) as (_ & Hrefused & Hdecision).
  split; [exact Hrefused|]. apply Hdecision. discriminate.
Defined.

(** Three runs of [main]: an accelerated machine without override, the
    same machine with prefetch forced off, and an unreachable metadata
    server with prefetch forced on. *)
Example main_on_accelerated_machine :
  main (worldAnswering 200 "projects/12/machineTypes/a3-highgpu-8g" None "")
  = ([ Start "ls" ["-R"; "/volumes/"];
       Log (klog.Info "Running ls on mountPath(s): bucket-a, bucket-b");
       Log (klog.Info "Metadata prefetch complete");
       Log (klog.Info "Going to sleep...") ],
     Parked).
Proof. reflexivity. Qed.

Example main_forced_off :
  main (worldAnswering 200 "projects/12/machineTypes/a3-highgpu-8g" None
                       "FALSE")
  = ([ Log (klog.Info "Going to sleep...") ], Parked).
Proof. reflexivity. Qed.

Example main_forced_on_unreachable :
  main (worldUnreachable "TRUE")
  = ([ Log (klog.Warning
              "Unable to fetch machine-type, ignoring: failed to get machine type: dial tcp: connection refused");
       Start "ls" ["-R"; "/volumes/"];
       Log (klog.Info "Running ls on mountPath(s): ");
       Log (klog.Info "Metadata prefetch complete");
       Log (klog.Info "Going to sleep...") ],
     Parked).
Proof. reflexivity. Qed.

(** C4.  When the fetch of the machine type returns an error and the
    override is neither [TRUE] nor [FALSE] (unset, it reads as the empty
    string), the decision is false: no command is started.  The failure
    is logged as a warning and [main] goes on to its last statement, where
    it parks. *)
Theorem C4_fetch_failure_is_not_fatal
        (w : World) (machineType : string) (err : error) :
  getMachineType w = Returns (machineType, Some err) ->
  Getenv w "USER_ENABLED_METADATA_PREFETCH" <> "TRUE" ->
  Getenv w "USER_ENABLED_METADATA_PREFETCH" <> "FALSE" ->
  enablePrefetch (Getenv w "USER_ENABLED_METADATA_PREFETCH") machineType
  = false /\
  main w =
    ([ Log (klog.Warning
              ("Unable to fetch machine-type, ignoring: " +:+ Error err));
       Log (klog.Info "Going to sleep...") ],
     Parked).
Proof.
  intros Hret Htrue Hfalse.
  assert (Hdecision :
    enablePrefetch (Getenv w "USER_ENABLED_METADATA_PREFETCH") machineType
    = false).
  { destruct (getMachineType_cases w)
      as [(err' & Hret' & _) | [(body & Hret' & _) | Hret']];
      rewrite Hret' in Hret; try discriminate Hret.
    injection Hret as <- _. unfold enablePrefetch.
    apply String.eqb_neq in Htrue, Hfalse. now rewrite Htrue, Hfalse. }
  split; [exact Hdecision|].
  unfold main. rewrite Hret, Hdecision. reflexivity.
Qed.

Lemma C4_fetch_failure_is_not_fatal_witness :
  getMachineType (worldUnreachable "")
  = Returns ("", Some (Errorf_w "failed to get machine type: "
                         (errorString "dial tcp: connection refused"))) /\
  Getenv (worldUnreachable "") "USER_ENABLED_METADATA_PREFETCH" <> "TRUE" /\
  Getenv (worldUnreachable "") "USER_ENABLED_METADATA_PREFETCH" <> "FALSE" /\
  main (worldUnreachable "") =
    ([ Log (klog.Warning
              "Unable to fetch machine-type, ignoring: failed to get machine type: dial tcp: connection refused");
       Log (klog.Info "Going to sleep...") ],
     Parked).
Proof.
  split; [reflexivity|].
  split; [discriminate|]. split; [discriminate|].
  apply (C4_fetch_failure_is_not_fatal
           (worldUnreachable "") ""
           (Errorf_w "failed to get machine type: "
              (errorString "dial tcp: connection refused"))
           eq_refl);
    discriminate.
Defined.

End MetadataPrefetchSpec.

(** ** The sidecar contract and the injection validator *)

Module WebhookSpec.

Import Bytes strings stringsFacts Vocabulary v1 Webhook Samples.

(** The condition of the outer loop never panics ([Split] with a
    separator that is not empty returns a piece), and it holds exactly of
    the sidecars of [image]. *)
Lemma nameAndImageMatch_spec (image : string) (c : Container.t) :
  exists b, nameAndImageMatch image c = Some b /\
            (b = true <-> isSidecarOf image c).
Proof.
  unfold nameAndImageMatch, isSidecarOf.
  destruct (String.eqb_spec (Container.Name c) SidecarContainerName)
    as [Hname|Hname].
  - rewrite (Split_head ":" (Container.Image c)). simpl.
    eexists. split; [reflexivity|].
    rewrite String.eqb_eq. tauto.
  - exists false. split; [reflexivity|].
    split; [discriminate | tauto].
Qed.

Lemma nameAndImageMatch_true (image : string) (c : Container.t) :
  isSidecarOf image c -> nameAndImageMatch image c = Some true.
Proof.
  intros H. destruct (nameAndImageMatch_spec image c) as (b & -> & Hb).
  f_equal. now apply Hb.
Qed.

Lemma nameAndImageMatch_false (image : string) (c : Container.t) :
  ~ isSidecarOf image c -> nameAndImageMatch image c = Some false.
Proof.
  intros H. destruct (nameAndImageMatch_spec image c) as ([] & -> & Hb).
  - exfalso. now apply H, Hb.
  - reflexivity.
Qed.

(** The inner loop sets the variable exactly when some mount is the one
    of the contract. *)
Lemma rangeVolumeMounts_spec (vms : list VolumeMount.t) :
  rangeVolumeMounts vms false = true <->
  exists m, In m vms /\ isContractMount m.
Proof.
  unfold isContractMount. induction vms as [|v vms IH]; simpl.
  - split; [discriminate | intros (m & [] & _)].
  - destruct (String.eqb_spec (VolumeMount.Name v) SidecarContainerVolumeName)
      as [Hname|Hname];
    destruct (String.eqb_spec (VolumeMount.MountPath v)
                              SidecarContainerVolumeMountPath)
      as [Hpath|Hpath]; simpl;
    try (rewrite IH; split;
         [ intros (m & Hin & Hm); exists m; auto
         | intros (m & [<-|Hin] & Hm1 & Hm2);
           [congruence | exists m; auto] ]).
    split; [intros _; exists v; auto | reflexivity].
Qed.

(** The second loop sets the variable exactly when some volume has the
    name of the contract and an empty-directory source. *)
Lemma rangeVolumes_spec (vs : list Volume.t) :
  rangeVolumes vs false = true <-> hasContractVolume vs.
Proof.
  unfold hasContractVolume. induction vs as [|v vs IH]; simpl.
  - split; [discriminate | intros (x & [] & _)].
  - destruct (String.eqb_spec (Volume.Name v) SidecarContainerVolumeName)
      as [Hname|Hname];
    destruct (VolumeSource.EmptyDir (Volume.VolumeSource v)) as [dir|] eqn:Hdir;
      simpl;
    try (rewrite IH; split;
         [ intros (x & Hin & Hx); exists x; auto
         | intros (x & [<-|Hin] & Hx1 & Hx2);
           [congruence | exists x; auto] ]).
    split; [intros _; exists v; rewrite Hdir; auto | reflexivity].
Qed.

(** The outer loop stops at the first sidecar of [image]; what comes
    after it is not read. *)
Lemma rangeContainers_first (image : string) (pre : list Container.t)
      (c : Container.t) (post : list Container.t) (flag : bool) :
  (forall x, In x pre -> ~ isSidecarOf image x) ->
  isSidecarOf image c ->
  rangeContainers image (pre ++ c :: post) flag
  = Some (rangeVolumeMounts (Container.VolumeMounts c) flag).
Proof.
  intros Hpre Hc. induction pre as [|x pre IH]; simpl.
  - now rewrite (nameAndImageMatch_true image c Hc).
  - rewrite (nameAndImageMatch_false image x); [|apply Hpre; now left].
    apply IH. intros y Hy. apply Hpre. now right.
Qed.

(** Without a sidecar of [image] the outer loop changes nothing. *)
Lemma rangeContainers_none (image : string) (cs : list Container.t)
      (flag : bool) :
  (forall x, In x cs -> ~ isSidecarOf image x) ->
  rangeContainers image cs flag = Some flag.
Proof.
  induction cs as [|x cs IH]; simpl; intros Hcs; [reflexivity|].
  rewrite (nameAndImageMatch_false image x); [|apply Hcs; now left].
  apply IH. intros y Hy. apply Hcs. now right.
Qed.

(** The containers split at their first sidecar of [image], if any. *)
Lemma first_sidecar_split (image : string) (cs : list Container.t) :
  (forall x, In x cs -> ~ isSidecarOf image x) \/
  exists pre c post,
    cs = pre ++ c :: post /\
    (forall x, In x pre -> ~ isSidecarOf image x) /\
    isSidecarOf image c.
Proof.
  induction cs as [|x cs IH].
  - left. intros y [].
  - destruct (nameAndImageMatch_spec image x) as ([] & _ & Hx).
    + right. exists [], x, cs.
      split; [reflexivity|]. split; [intros y [] | now apply Hx].
    + assert (Hnot : ~ isSidecarOf image x)
        by (intros H; apply Hx in H; discriminate H).
      destruct IH as [Hnone | (pre & c & post & -> & Hpre & Hc)].
      * left. intros y [<-|Hy]; auto.
      * right. exists (x :: pre), c, post.
        split; [reflexivity|]. split; [|exact Hc].
        intros y [<-|Hy]; auto.
Qed.

(** The first sidecar of [image] is determined by the list. *)
Lemma first_sidecar_unique (image : string)
      (pre pre' : list Container.t) (c c' : Container.t)
      (post post' : list Container.t) :
  pre ++ c :: post = pre' ++ c' :: post' ->
  (forall x, In x pre -> ~ isSidecarOf image x) ->
  (forall x, In x pre' -> ~ isSidecarOf image x) ->
  isSidecarOf image c -> isSidecarOf image c' ->
  c = c'.
Proof.
  revert pre'. induction pre as [|x pre IH]; intros [|x' pre']; simpl.
  - intros [= -> _]. reflexivity.
  - intros [= <- _] _ Hpre' Hc _. exfalso. apply (Hpre' c); auto.
  - intros [= -> _] Hpre _ _ Hc'. exfalso. apply (Hpre c'); auto.
  - intros [= -> Heq] Hpre Hpre' Hc Hc'.
    apply (IH pre' Heq); auto.
Qed.

(** The outer loop, in words. *)
Lemma rangeContainers_spec (image : string) (cs : list Container.t) :
  exists b, rangeContainers image cs false = Some b /\
            (b = true <-> firstSidecarMounted image cs).
Proof.
  unfold firstSidecarMounted, carriesContractMount.
  destruct (first_sidecar_split image cs)
    as [Hnone | (pre & c & post & -> & Hpre & Hc)].
  - exists false. split; [now apply rangeContainers_none|].
    split; [discriminate|].
    intros (pre & c & post & -> & _ & Hc & _).
    exfalso. apply (Hnone c); [|exact Hc].
    apply in_or_app. right. now left.
  - eexists. split; [now apply rangeContainers_first|].
    rewrite rangeVolumeMounts_spec. split.
    + intros Hm. exists pre, c, post. auto.
    + intros (pre' & c' & post' & Heq & Hpre' & Hc' & Hm).
      now rewrite (first_sidecar_unique image _ _ _ _ _ _ Heq Hpre Hpre' Hc Hc').
Qed.

Lemma firstSidecarMounted_some (image : string) (cs : list Container.t) :
  firstSidecarMounted image cs -> someSidecarMounted image cs.
Proof.
  intros (pre & c & post & -> & _ & Hc & Hm). exists c.
  split; [|auto]. apply in_or_app. right. now left.
Qed.

(** The validator never panics on a pod that is there, and its verdict is
    the conjunction of the two loops. *)
Lemma Validate_spec (image : string) (pod : Pod.t) :
  exists b,
    ValidatePodHasSidecarContainerInjected image (Some pod) = Some b /\
    (b = true <->
     firstSidecarMounted image (PodSpec.Containers (Pod.Spec pod)) /\
     hasContractVolume (PodSpec.Volumes (Pod.Spec pod))).
Proof.
  unfold ValidatePodHasSidecarContainerInjected. simpl.
  destruct (rangeContainers_spec image (PodSpec.Containers (Pod.Spec pod)))
    as (b & -> & Hb). simpl.
  eexists. split; [reflexivity|].
  rewrite andb_true_iff, Hb, rangeVolumes_spec. reflexivity.
Qed.

(** C2, as the code has it.  The validator inspects only the first
    container that has the name of the sidecar and whose image text
    before the first colon is the expected image.  Containers before it,
    among them containers of the same name from another image, are passed
    over; containers after it are not read: the verdict is the mount
    check of that container together with the volume check, whatever
    follows.  If that container fails the mount check the verdict is
    false. *)
Theorem C2_first_sidecar_of_image_decides
        (image : string) (pre : list Container.t) (c : Container.t)
        (post : list Container.t) (vs : list Volume.t) :
  (forall x, In x pre -> ~ isSidecarOf image x) ->
  isSidecarOf image c ->
  ValidatePodHasSidecarContainerInjected image
    (Some (pod (pre ++ c :: post) vs))
  = Some (rangeVolumeMounts (Container.VolumeMounts c) false
          && rangeVolumes vs false)
  /\ (~ carriesContractMount c ->
      ValidatePodHasSidecarContainerInjected image
        (Some (pod (pre ++ c :: post) vs))
      = Some false).
Proof.
  intros Hpre Hc.
  assert (Hverdict :
    ValidatePodHasSidecarContainerInjected image
      (Some (pod (pre ++ c :: post) vs))
    = Some (rangeVolumeMounts (Container.VolumeMounts c) false
            && rangeVolumes vs false)).
  { unfold ValidatePodHasSidecarContainerInjected. simpl.
    now rewrite (rangeContainers_first image pre c post false Hpre Hc). }
  split; [exact Hverdict|].
  intros Hm. rewrite Hverdict.
  destruct (rangeVolumeMounts (Container.VolumeMounts c) false) eqn:Hloop;
    [|reflexivity].
  exfalso. apply Hm. now apply rangeVolumeMounts_spec.
Qed.

Lemma C2_first_sidecar_of_image_decides_witness :
  (forall x, In x [workload; sidecarOtherImage] -> ~ isSidecarOf "repoX" x) /\
  isSidecarOf "repoX" sidecarUnmounted /\
  ValidatePodHasSidecarContainerInjected "repoX"
    (Some (pod ([workload; sidecarOtherImage] ++ sidecarUnmounted :: [sidecar])
               [contractVolume]))
  = Some false.
Proof.
  assert (Hpre : forall x, In x [workload; sidecarOtherImage] ->
                           ~ isSidecarOf "repoX" x).
  { intros x [<-|[<-|[]]] [Hname Himage]; discriminate. }
  assert (Hc : isSidecarOf "repoX" sidecarUnmounted).
  { split; reflexivity. }
  split; [exact Hpre|]. split; [exact Hc|].
  exact (proj1 (C2_first_sidecar_of_image_decides
                  "repoX" [workload; sidecarOtherImage] sidecarUnmounted
                  [sidecar] [contractVolume] Hpre Hc)).
Defined.

(** C2, as the specification words it, fails.  The first container with
    the name of the sidecar is from another image, so it fails the image
    check; the verdict is nevertheless true, and it is the later container
    of the same name that makes it so: without it the verdict is false. *)
Lemma C2_later_container_of_same_name_is_considered :
  Container.Name sidecarOtherImage = SidecarContainerName /\
  before ":" (Container.Image sidecarOtherImage) <> "repoX" /\
  Container.Name sidecar = SidecarContainerName /\
  ValidatePodHasSidecarContainerInjected "repoX"
    (Some (pod [sidecarOtherImage; sidecar] [contractVolume]))
  = Some true /\
  ValidatePodHasSidecarContainerInjected "repoX"
    (Some (pod [sidecarOtherImage] [contractVolume]))
  = Some false.
Proof.
  split; [reflexivity|]. split; [discriminate|].
  repeat split; reflexivity.
Qed.

(** C3, as the code has it.  The validator answers true exactly when the
    first sidecar of the expected image carries the mount of the contract
    and some volume of the pod has the name of the contract and an
    empty-directory source.  A true answer implies the two conditions of
    the specification.  The validator answers for every pod, and answers
    false when the pod has no containers or no volumes.  The pod of the
    specification is accepted, and each of the four alterations (image
    repository, mount path, mount, source of the volume) is refused. *)
Theorem C3_injected_iff_first_sidecar_mounted
        (image : string) (p : Pod.t) :
  (ValidatePodHasSidecarContainerInjected image (Some p) = Some true <->
   firstSidecarMounted image (PodSpec.Containers (Pod.Spec p)) /\
   hasContractVolume (PodSpec.Volumes (Pod.Spec p))) /\
  (ValidatePodHasSidecarContainerInjected image (Some p) = Some true ->
   someSidecarMounted image (PodSpec.Containers (Pod.Spec p)) /\
   hasContractVolume (PodSpec.Volumes (Pod.Spec p))) /\
  (exists b, ValidatePodHasSidecarContainerInjected image (Some p) = Some b) /\
  (PodSpec.Containers (Pod.Spec p) = [] ->
   ValidatePodHasSidecarContainerInjected image (Some p) = Some false) /\
  (PodSpec.Volumes (Pod.Spec p) = [] ->
   ValidatePodHasSidecarContainerInjected image (Some p) = Some false) /\
  ValidatePodHasSidecarContainerInjected "repoX"
    (Some (pod [sidecar] [contractVolume])) = Some true /\
  ValidatePodHasSidecarContainerInjected "repoY"
    (Some (pod [sidecar] [contractVolume])) = Some false /\
  ValidatePodHasSidecarContainerInjected "repoX"
    (Some (pod [container SidecarContainerName "repoX:v1"
                  [mount SidecarContainerVolumeName "/var"]]
               [contractVolume])) = Some false /\
  ValidatePodHasSidecarContainerInjected "repoX"
    (Some (pod [sidecarUnmounted] [contractVolume])) = Some false /\
  ValidatePodHasSidecarContainerInjected "repoX"
    (Some (pod [sidecar]
               [hostPathVolume SidecarContainerVolumeName "/tmp"]))
  = Some false.
Proof.
  destruct (Validate_spec image p) as (b & Hret & Hb).
  assert (Hiff :
    ValidatePodHasSidecarContainerInjected image (Some p) = Some true <->
    firstSidecarMounted image (PodSpec.Containers (Pod.Spec p)) /\
    hasContractVolume (PodSpec.Volumes (Pod.Spec p))).
  { rewrite Hret, <- Hb. split; [now intros [= ->] | now intros ->]. }
  split; [exact Hiff|].
  split.
  { intros H. apply Hiff in H as [Hfirst Hvol].
    split; [now apply firstSidecarMounted_some | exact Hvol]. }
  split; [now exists b|].
  split.
  { intros Hnil. destruct b; [|exact Hret].
    destruct (proj1 Hb eq_refl) as [(pre & c & post & Heq & _) _].
    rewrite Hnil in Heq. now destruct pre. }
  split.
  { intros Hnil. destruct b; [|exact Hret].
    destruct (proj1 Hb eq_refl) as [_ (v & Hin & _)].
    rewrite Hnil in Hin. destruct Hin. }
  repeat split; reflexivity.
Qed.

Lemma C3_injected_iff_first_sidecar_mounted_witness :
  PodSpec.Containers (Pod.Spec (pod [] [contractVolume])) = [] /\
  ValidatePodHasSidecarContainerInjected "repoX"
    (Some (pod [] [contractVolume])) = Some false /\
  firstSidecarMounted "repoX" [workload; sidecar] /\
  hasContractVolume [contractVolume].
Proof.
  split; [reflexivity|]. split.
  - apply (proj1 (proj2 (proj2 (proj2
             (C3_injected_iff_first_sidecar_mounted
                "repoX" (pod [] [contractVolume])))))).
    reflexivity.
  - apply (proj1 (proj1 (C3_injected_iff_first_sidecar_mounted
                           "repoX" (pod [workload; sidecar] [contractVolume])))).
    reflexivity.
Defined.

(** C3, as the specification words it, fails.  A container with the name
    of the sidecar and the expected image carries the mount of the
    contract, and a volume of the contract is there, yet the verdict is
    false: an earlier sidecar of the same image has no mount, and the
    validator stops at it. *)
Lemma C3_some_sidecar_mounted_yet_refused :
  someSidecarMounted "repoX" [sidecarUnmounted; sidecar] /\
  hasContractVolume [contractVolume] /\
  ValidatePodHasSidecarContainerInjected "repoX"
    (Some (pod [sidecarUnmounted; sidecar] [contractVolume]))
  = Some false.
Proof.
  split.
  - exists sidecar. split; [right; now left|].
    split; [split; reflexivity|].
    exists contractMount. split; [now left | split; reflexivity].
  - split; [|reflexivity].
    exists contractVolume. split; [now left|].
    split; [reflexivity | discriminate].
Qed.

(** C7.  For every configuration the container of the contract has
    limits equal to its requests: the two maps are equal, and each holds
    the CPU, memory and ephemeral-storage quantities of the configuration
    under the three resource names and nothing else.  Its list of volume
    mounts has exactly one entry, with the volume name and the mount path
    of the contract. *)
Theorem C7_limits_equal_requests_and_one_mount (cfg : Config) :
  exists spec : Container.t,
    GetSidecarContainerSpec (Some cfg) = Some spec /\
    ResourceRequirements.Limits (Container.Resources spec)
    = ResourceRequirements.Requests (Container.Resources spec) /\
    ResourceRequirements.Limits (Container.Resources spec) !! ResourceCPU
    = Some (CPULimit cfg) /\
    ResourceRequirements.Requests (Container.Resources spec) !! ResourceCPU
    = Some (CPULimit cfg) /\
    ResourceRequirements.Limits (Container.Resources spec) !! ResourceMemory
    = Some (MemoryLimit cfg) /\
    ResourceRequirements.Requests (Container.Resources spec) !! ResourceMemory
    = Some (MemoryLimit cfg) /\
    ResourceRequirements.Limits (Container.Resources spec)
      !! ResourceEphemeralStorage
    = Some (EphemeralStorageLimit cfg) /\
    ResourceRequirements.Requests (Container.Resources spec)
      !! ResourceEphemeralStorage
    = Some (EphemeralStorageLimit cfg) /\
    dom (ResourceRequirements.Limits (Container.Resources spec))
    = ({[ ResourceCPU; ResourceMemory; ResourceEphemeralStorage ]}
       : gset string) /\
    Container.VolumeMounts spec
    = [ {| VolumeMount.Name := SidecarContainerVolumeName;
           VolumeMount.MountPath := SidecarContainerVolumeMountPath |} ] /\
    length (Container.VolumeMounts spec) = 1.
Proof.
  eexists. split; [reflexivity|]. simpl.
  split; [reflexivity|].
  do 6 (split; [by simplify_map_eq|]).
  split; [rewrite !dom_insert_L, dom_singleton_L; set_solver|].
  split; reflexivity.
Qed.

(** C8.  The volume of the contract has the fixed name and an
    empty-directory source and no other source; the validator's volume
    check accepts it; and any two calls return equal values. *)
Theorem C8_volume_spec_is_fixed_empty_dir :
  (forall call call' : unit,
     GetSidecarContainerVolumeSpec call = GetSidecarContainerVolumeSpec call') /\
  (forall call : unit,
     Volume.Name (GetSidecarContainerVolumeSpec call)
     = SidecarContainerVolumeName /\
     VolumeSource.EmptyDir
       (Volume.VolumeSource (GetSidecarContainerVolumeSpec call))
     = Some {| EmptyDirVolumeSource.Medium := "";
               EmptyDirVolumeSource.SizeLimit := None |} /\
     VolumeSource.HostPath
       (Volume.VolumeSource (GetSidecarContainerVolumeSpec call))
     = None /\
     hasContractVolume [GetSidecarContainerVolumeSpec call]).
Proof.
  split; [reflexivity|].
  intros call. repeat split.
  exists (GetSidecarContainerVolumeSpec call).
  split; [now left|]. split; [reflexivity | discriminate].
Qed.

(** The contract passes its own validator: a pod with the container and
    the volume that the two builders return is accepted for the image
    repository of the configuration, provided the repository has no
    colon. *)
Lemma contract_validates (cfg : Config) (spec : Container.t)
      (others : list Container.t) (vs : list Volume.t) :
  all (differs ":") (ContainerImage cfg) = true ->
  GetSidecarContainerSpec (Some cfg) = Some spec ->
  (forall x, In x others -> ~ isSidecarOf (ContainerImage cfg) x) ->
  ValidatePodHasSidecarContainerInjected (ContainerImage cfg)
    (Some (pod (others ++ [spec]) (vs ++ [GetSidecarContainerVolumeSpec tt])))
  = Some true.
Proof.
  intros Hrepo [= <-] Hothers.
  unfold ValidatePodHasSidecarContainerInjected. simpl.
  rewrite (rangeContainers_first (ContainerImage cfg) others _ [] false);
    [| exact Hothers
     | split; [reflexivity | simpl; now apply before_app] ].
  simpl. f_equal. apply rangeVolumes_spec.
  exists (GetSidecarContainerVolumeSpec tt).
  split; [apply in_or_app; right; now left|].
  split; [reflexivity | discriminate].
Qed.

End WebhookSpec.

(* ===================================================================== *)
(** * Part III: further properties of the same code *)
(* ===================================================================== *)

(** ** The classifier, the fetch and [main] *)

Module MetadataPrefetchMore.

Import Bytes BytesFacts regexp regexpFacts fmt.
Import Vocabulary MetadataPrefetch PatternFacts MetadataPrefetchSpec Samples.

(** The loop of [getDirectoryNames] appends the names of the directories
    to what it has, in the order of the listing. *)
Lemma directories_fold (items : list DirEntry) (directories : list string) :
  fold_left
    (fun directories item =>
       if IsDir item then directories ++ [Name item] else directories)
    items directories
  = directories ++ map Name (List.filter IsDir items).
Proof.
  revert directories. induction items as [|item items IH]; intros directories.
  - simpl. now rewrite app_nil_r.
  - simpl. rewrite IH. destruct (IsDir item); [|reflexivity].
    simpl. now rewrite <- List.app_assoc.
Qed.

(** X1.  [getDirectoryNames] returns, when the directory can be read, the
    names of exactly those entries that are directories, in the order of
    the listing, and no error; when reading fails it returns the error
    and an empty list, whatever entries were read before the failure. *)
Theorem X1_getDirectoryNames_lists_directories
        (w : World) (dirPath : string) :
  (forall items,
     ReadDir w dirPath = (items, None) ->
     getDirectoryNames w dirPath
     = (map Name (List.filter IsDir items), None)) /\
  (forall items err,
     ReadDir w dirPath = (items, Some err) ->
     getDirectoryNames w dirPath = ([], Some err)).
Proof.
  unfold getDirectoryNames. split.
  - intros items ->. now rewrite directories_fold.
  - intros items err ->. reflexivity.
Qed.

Lemma X1_getDirectoryNames_lists_directories_witness :
  ReadDir (worldAnswering 200 "" None "") "/volumes/"
  = ([ {| Name := "bucket-a"; IsDir := true |};
       {| Name := "notes.txt"; IsDir := false |};
       {| Name := "bucket-b"; IsDir := true |} ], None) /\
  getDirectoryNames (worldAnswering 200 "" None "") "/volumes/"
  = (["bucket-a"; "bucket-b"], None).
Proof.
  split; [reflexivity|].
  exact (proj1 (X1_getDirectoryNames_lists_directories
                  (worldAnswering 200 "" None "") "/volumes/")
               _ eq_refl).
Defined.

(** X2.  The classifier accepts exactly the strings of the form
    [projects/<digits>/machineTypes/<family>-<rest>] with a non-empty run
    of digits, one of the six families, and a rest without line feed. *)
Theorem X2_classifier_accepts_exactly (machineType : string) :
  MatchString supportedMachineRegex machineType = true <->
  exists project family rest,
    project <> "" /\
    all isDigit project = true /\
    In family families /\
    all notNL rest = true /\
    machineType =
      "projects/" +:+ project +:+ "/machineTypes/" +:+ family +:+ "-" +:+ rest.
Proof. apply supportedMachineRegex_MatchString. Qed.

(** A digit is not a line feed, and no family has one. *)
Lemma isDigit_notNL (c : ascii) : isDigit c = true -> notNL c = true.
Proof.
  destruct c as [[] [] [] [] [] [] [] []]; vm_compute; congruence.
Qed.

Lemma digits_notNL (s : string) :
  all isDigit s = true -> all notNL s = true.
Proof.
  induction s as [|c s IH]; simpl; [reflexivity|].
  intros H. apply andb_true_iff in H as [Hc Hs].
  now rewrite (isDigit_notNL c Hc), IH.
Qed.

Lemma family_notNL (family : string) :
  In family families -> all notNL family = true.
Proof.
  simpl. intros [<-|[<-|[<-|[<-|[<-|[<-|[]]]]]]]; reflexivity.
Qed.

(** An accepted string has no line feed. *)
Lemma accepted_notNL (machineType : string) :
  MatchString supportedMachineRegex machineType = true ->
  all notNL machineType = true.
Proof.
  intros H. apply supportedMachineRegex_MatchString in H
    as (project & family & rest & _ & Hdigits & Hin & Hrest & ->).
  rewrite !all_app, Hrest, (digits_notNL _ Hdigits), (family_notNL _ Hin).
  reflexivity.
Qed.

(** X3.  A string with a line feed anywhere is refused: a machine type
    that arrives with a trailing line feed is not classified as
    accelerated, and with no override the decision for it is false. *)
Theorem X3_line_feed_is_refused (front back : string) :
  MatchString supportedMachineRegex (front +:+ String lineFeed back) = false /\
  enablePrefetch "" (front +:+ String lineFeed back) = false.
Proof.
  assert (H : MatchString supportedMachineRegex
                (front +:+ String lineFeed back) = false).
  { destruct (MatchString supportedMachineRegex
                (front +:+ String lineFeed back)) eqn:Hm; [|reflexivity].
    apply accepted_notNL in Hm. rewrite all_app in Hm. simpl in Hm.
    now rewrite andb_false_r in Hm. }
  split; [exact H|]. unfold enablePrefetch. simpl. exact H.
Qed.

(** X4.  The classification does not depend on the project number: two
    strings that differ only in the run of digits after [projects/] get
    the same answer. *)
Theorem X4_project_number_is_irrelevant (project project' tail : string) :
  project <> "" -> all isDigit project = true ->
  project' <> "" -> all isDigit project' = true ->
  MatchString supportedMachineRegex
    ("projects/" +:+ project +:+ "/" +:+ tail)
  = MatchString supportedMachineRegex
      ("projects/" +:+ project' +:+ "/" +:+ tail).
Proof.
  assert (Hone : forall p q,
    q <> "" -> all isDigit p = true -> all isDigit q = true ->
    MatchString supportedMachineRegex ("projects/" +:+ p +:+ "/" +:+ tail)
    = true ->
    MatchString supportedMachineRegex ("projects/" +:+ q +:+ "/" +:+ tail)
    = true).
  { intros p q Hq Hp Hqd H.
    apply supportedMachineRegex_MatchString in H
      as (number & family & rest & _ & Hdigits & Hin & Hrest & Heq).
    apply (app_inv_head "projects/") in Heq.
    apply segment_unique in Heq as [_ ->];
      [| now apply digits_no_slash | now apply digits_no_slash].
    apply supportedMachineRegex_MatchString.
    exists q, family, rest. auto. }
  intros Hne Hd Hne' Hd'. apply Bool.eq_iff_eq_true. split; eauto.
Qed.

Lemma X4_project_number_is_irrelevant_witness :
  "1" <> "" /\ all isDigit "1" = true /\
  "987654" <> "" /\ all isDigit "987654" = true /\
  MatchString supportedMachineRegex
    "projects/1/machineTypes/ct5p-hightpu-4t"
  = MatchString supportedMachineRegex
      "projects/987654/machineTypes/ct5p-hightpu-4t".
Proof.
  split; [discriminate|]. split; [reflexivity|].
  split; [discriminate|]. split; [reflexivity|].
  apply (X4_project_number_is_irrelevant
           "1" "987654" "machineTypes/ct5p-hightpu-4t");
    (discriminate || reflexivity).
Defined.

(** X5.  No failure stops [main]: it parks in its last statement unless
    a call blocks.  It parks exactly when the fetch returns and either
    prefetch is disabled, or the command does not start, or the wait for
    the command returns.  When it parks, the last thing it logs is the
    line that announces the sleep; when it does not park, that line is
    not in the log. *)
Theorem X5_main_parks_unless_a_call_blocks (w : World) :
  (snd (main w) = Parked <->
   exists machineType err,
     getMachineType w = Returns (machineType, err) /\
     (enablePrefetch (Getenv w "USER_ENABLED_METADATA_PREFETCH") machineType
      = false \/
      Cmd_Start w "ls" ["-R"; mountPathsLocation] <> None \/
      Cmd_Wait w <> Blocks)) /\
  (snd (main w) = Parked ->
   last (fst (main w)) = Some (Log (klog.Info "Going to sleep..."))) /\
  (snd (main w) <> Parked ->
   ~ In (Log (klog.Info "Going to sleep...")) (fst (main w))).
Proof.
  unfold main.
  destruct (getMachineType w) as [[machineType err]|] eqn:Hfetch.
  - destruct (enablePrefetch _ machineType) eqn:Hdecision.
    + destruct (Cmd_Start w "ls" ["-R"; mountPathsLocation]) as [e|] eqn:Hstart.
      * split; [|split].
        -- split; [|reflexivity]. intros _.
           exists machineType, err. split; [reflexivity|].
           right. left. discriminate.
        -- intros _. destruct err; reflexivity.
        -- intros H. now contradiction H.
      * destruct (getDirectoryNames w mountPathsLocation) as [paths [e|]];
        destruct (Cmd_Wait w) as [[e'|]|] eqn:Hwait;
          (split; [|split]);
          first
            [ (* parked: the equivalence *)
              split; [|reflexivity]; intros _;
              exists machineType, err; split; [reflexivity|];
              right; right; discriminate
            | (* parked: the last line *)
              intros _; destruct err; reflexivity
            | (* parked: nothing to show for a run that does not park *)
              intros H; now contradiction H
            | (* stuck: the equivalence *)
              split; [discriminate|];
              intros (m & e0 & Heq & [H|[H|H]]);
              [ injection Heq as <- <-; congruence
              | now contradiction H
              | now contradiction H ]
            | (* stuck: no last line to show *)
              discriminate
            | (* stuck: the sleep is not announced *)
              intros _; destruct err; simpl; intros H;
              repeat (destruct H as [H|H]; [discriminate H|]);
              contradiction H ].
    + split; [|split].
      * split; [|reflexivity]. intros _.
        exists machineType, err. split; [reflexivity|]. now left.
      * intros _. destruct err; reflexivity.
      * intros H. now contradiction H.
  - split; [|split].
    + split; [discriminate|]. intros (m & e & H & _). discriminate H.
    + discriminate.
    + intros _ [].
Qed.

Lemma X5_main_parks_unless_a_call_blocks_witness :
  snd (main (worldUnreachable "TRUE")) = Parked /\
  last (fst (main (worldUnreachable "TRUE")))
  = Some (Log (klog.Info "Going to sleep...")) /\
  snd (main (worldHanging "TRUE")) <> Parked /\
  ~ In (Log (klog.Info "Going to sleep...")) (fst (main (worldHanging "TRUE"))).
Proof.
  split; [reflexivity|]. split.
  - apply (proj1 (proj2 (X5_main_parks_unless_a_call_blocks
                           (worldUnreachable "TRUE")))).
    reflexivity.
  - split; [discriminate|].
    apply (proj2 (proj2 (X5_main_parks_unless_a_call_blocks
                           (worldHanging "TRUE")))).
    discriminate.
Defined.

(** X6.  [main] starts a command exactly when the fetch returns, the
    decision is true and the start succeeds; the command is then
    [ls -R /volumes/], and it is started once. *)
Theorem X6_command_started_iff (w : World) :
  (forall name args,
     In (Start name args) (fst (main w)) <->
     name = "ls" /\ args = ["-R"; "/volumes/"] /\
     exists machineType err,
       getMachineType w = Returns (machineType, err) /\
       enablePrefetch (Getenv w "USER_ENABLED_METADATA_PREFETCH") machineType
       = true /\
       Cmd_Start w "ls" ["-R"; "/volumes/"] = None) /\
  length (List.filter isStart (fst (main w))) <= 1.
Proof.
  unfold main, mountPathsLocation.
  destruct (getMachineType w) as [[machineType err]|] eqn:Hfetch.
  - destruct (enablePrefetch _ machineType) eqn:Hdecision.
    + destruct (Cmd_Start w "ls" ["-R"; "/volumes/"]) as [e|] eqn:Hstart.
      * split.
        -- intros name args. split.
           ++ destruct err; simpl; intros H;
                repeat (destruct H as [H|H]; [discriminate H|]);
                contradiction H.
           ++ intros (_ & _ & m & e0 & _ & _ & H). discriminate H.
        -- destruct err; simpl; lia.
      * destruct (getDirectoryNames w "/volumes/") as [paths [e|]];
        destruct (Cmd_Wait w) as [[e'|]|];
          (split;
           [ intros name args; split;
             [ destruct err; simpl; intros H;
               repeat (destruct H as [H|H];
                       [first [ injection H as <- <-; repeat split;
                                exists machineType; eexists;
                                repeat split; assumption
                              | discriminate H ]|]);
               contradiction H
             | intros (-> & -> & _); destruct err; simpl; tauto ]
           | destruct err; simpl; lia ]).
    + split.
      * intros name args. split.
        -- destruct err; simpl; intros H;
             repeat (destruct H as [H|H]; [discriminate H|]);
             contradiction H.
        -- intros (_ & _ & m & e0 & [= <- <-] & H & _). congruence.
      * destruct err; simpl; lia.
  - split.
    + intros name args. split; [intros [] |].
      intros (_ & _ & m & e0 & H & _). discriminate H.
    + simpl. lia.
Qed.

Lemma X6_command_started_iff_witness :
  In (Start "ls" ["-R"; "/volumes/"]) (fst (main (worldUnreachable "TRUE"))) /\
  ~ In (Start "ls" ["-R"; "/volumes/"]) (fst (main (worldUnreachable ""))).
Proof.
  split.
  - apply (proj1 (X6_command_started_iff (worldUnreachable "TRUE"))).
    repeat split. eexists _, _. repeat split.
  - intros H.
    apply (proj1 (X6_command_started_iff (worldUnreachable ""))) in H
      as (_ & _ & m & e & Hfetch & Hdecision & _).
    injection Hfetch as <- _. discriminate Hdecision.
Defined.




End MetadataPrefetchMore.

(** ** The validator and the contract *)

Module WebhookMore.

Import Bytes strings stringsFacts Vocabulary v1 Webhook Samples WebhookSpec.

(** The text before the first separator has no separator. *)
Lemma before_differs (sep : ascii) (s : string) :
  all (differs sep) (before sep s) = true.
Proof.
  induction s as [|c s IH]; simpl; [reflexivity|].
  destruct (Ascii.eqb c sep) eqn:Hc; [reflexivity|].
  simpl. unfold differs at 1. now rewrite Hc.
Qed.

(** The condition of the outer loop, as a boolean. *)
Lemma nameAndImageMatch_eq (image : string) (c : Container.t) :
  nameAndImageMatch image c
  = Some (namedSidecar c
          && String.eqb (before ":" (Container.Image c)) image).
Proof.
  unfold nameAndImageMatch, namedSidecar.
  destruct (String.eqb (Container.Name c) SidecarContainerName);
    [|reflexivity].
  now rewrite (Split_head ":" (Container.Image c)).
Qed.

(** The verdict, from the verdicts of the two loops. *)
Lemma Validate_loops (image : string) (cs : list Container.t)
      (vs : list Volume.t) (b : bool) :
  rangeContainers image cs false = Some b ->
  ValidatePodHasSidecarContainerInjected image (Some (pod cs vs))
  = Some (b && rangeVolumes vs false).
Proof.
  intros H. unfold ValidatePodHasSidecarContainerInjected. simpl.
  now rewrite H.
Qed.

(** No container is the sidecar of an image that contains a colon. *)
Lemma image_with_colon_refused (image : string) (cs : list Container.t)
      (vs : list Volume.t) :
  all (differs ":") image = false ->
  ValidatePodHasSidecarContainerInjected image (Some (pod cs vs)) = Some false.
Proof.
  intros Hcolon.
  rewrite (Validate_loops image cs vs false); [reflexivity|].
  apply rangeContainers_none. intros x _ [_ Himage].
  rewrite <- Himage, before_differs in Hcolon. discriminate Hcolon.
Qed.

(** X9.  An expected image that contains a colon is never found: the
    validator compares it with the text before the first colon of each
    image reference, so it refuses every pod. *)
Theorem X9_expected_image_with_colon_is_refused
        (image : string) (p : Pod.t) :
  all (differs ":") image = false ->
  ValidatePodHasSidecarContainerInjected image (Some p) = Some false.
Proof.
  intros Hcolon. destruct p as [[vs cs]].
  now apply (image_with_colon_refused image cs vs).
Qed.

Lemma X9_expected_image_with_colon_is_refused_witness :
  all (differs ":") "localhost:5000/sidecar" = false /\
  ValidatePodHasSidecarContainerInjected "localhost:5000/sidecar"
    (Some (pod [container SidecarContainerName "localhost:5000/sidecar:v1"
                          [contractMount]]
               [contractVolume]))
  = Some false.
Proof.
  split; [reflexivity|].
  apply X9_expected_image_with_colon_is_refused. reflexivity.
Defined.

(** The container of the contract is the sidecar of the text before the
    first colon of the configured image. *)
Lemma built_container_isSidecarOf (cfg : Config) (spec : Container.t) :
  GetSidecarContainerSpec (Some cfg) = Some spec ->
  isSidecarOf (before ":" (ContainerImage cfg)) spec /\
  carriesContractMount spec.
Proof.
  intros [= <-]. split; [split; [reflexivity|] |].
  - simpl. generalize (ContainerImage cfg) as repo.
    induction repo as [|c repo IH]; simpl.
    + reflexivity.
    + destruct (Ascii.eqb c ":"); [reflexivity | now rewrite IH].
  - eexists. split; [now left|]. split; reflexivity.
Qed.

(** X10.  The contract passes its own validator exactly when the
    configured image has no colon.  A pod that holds the container and the
    volume that the two builders return is accepted for the text before
    the first colon of the configured image, among any other volumes and
    containers, provided no container before it is a sidecar of that
    image; so it is accepted for the configured image itself if and only
    if that image has no colon (a registry with a port has one). *)
Theorem X10_contract_passes_validator_iff_no_colon (cfg : Config) :
  exists spec : Container.t,
    GetSidecarContainerSpec (Some cfg) = Some spec /\
    (forall others more vs vs',
       (forall x, In x others ->
                  ~ isSidecarOf (before ":" (ContainerImage cfg)) x) ->
       ValidatePodHasSidecarContainerInjected (before ":" (ContainerImage cfg))
         (Some (pod (others ++ spec :: more)
                    (vs ++ GetSidecarContainerVolumeSpec tt :: vs')))
       = Some true) /\
    (ValidatePodHasSidecarContainerInjected (ContainerImage cfg)
       (Some (pod [spec] [GetSidecarContainerVolumeSpec tt]))
     = Some true <->
     all (differs ":") (ContainerImage cfg) = true).
Proof.
  destruct (GetSidecarContainerSpec (Some cfg)) as [spec|] eqn:Hspec;
    [|discriminate Hspec].
  exists spec. split; [reflexivity|].
  destruct (built_container_isSidecarOf cfg spec Hspec) as [Hsidecar Hmount].
  assert (Hall : forall others more vs vs',
    (forall x, In x others ->
               ~ isSidecarOf (before ":" (ContainerImage cfg)) x) ->
    ValidatePodHasSidecarContainerInjected (before ":" (ContainerImage cfg))
      (Some (pod (others ++ spec :: more)
                 (vs ++ GetSidecarContainerVolumeSpec tt :: vs')))
    = Some true).
  { intros others more vs vs' Hothers.
    rewrite (Validate_loops _ _ _ true).
    - simpl. f_equal. apply rangeVolumes_spec.
      exists (GetSidecarContainerVolumeSpec tt).
      split; [apply in_or_app; right; now left|].
      split; [reflexivity | discriminate].
    - rewrite (rangeContainers_first _ others _ more false Hothers Hsidecar).
      f_equal. now apply rangeVolumeMounts_spec. }
  split; [exact Hall|]. split.
  - intros H.
    destruct (all (differs ":") (ContainerImage cfg)) eqn:Hcolon;
      [reflexivity|].
    rewrite (image_with_colon_refused (ContainerImage cfg)) in H; [discriminate H|].
    exact Hcolon.
  - intros Hcolon.
    specialize (Hall [] [] [] [] (fun x (H : In x []) => match H with end)).
    rewrite (before_all ":" _ Hcolon) in Hall. exact Hall.
Qed.

Lemma X10_contract_passes_validator_iff_no_colon_witness :
  all (differs ":") (ContainerImage config) = true /\
  exists spec : Container.t,
    GetSidecarContainerSpec (Some config) = Some spec /\
    ValidatePodHasSidecarContainerInjected (ContainerImage config)
      (Some (pod [spec] [GetSidecarContainerVolumeSpec tt]))
    = Some true.
Proof.
  split; [reflexivity|].
  destruct (X10_contract_passes_validator_iff_no_colon config)
    as (spec & Hspec & _ & Hiff).
  exists spec. split; [exact Hspec|]. apply Hiff. reflexivity.
Defined.

(** X11.  The validator reads of a container its name, the text of its
    image before the first colon, and its volume mounts, and nothing
    else: the verdict is the same for two pods whose containers agree, one
    by one, on these three. *)
Theorem X11_verdict_ignores_the_image_tag
        (image : string) (cs cs' : list Container.t) (vs : list Volume.t) :
  Forall2 sameButTag cs cs' ->
  ValidatePodHasSidecarContainerInjected image (Some (pod cs vs))
  = ValidatePodHasSidecarContainerInjected image (Some (pod cs' vs)).
Proof.
  intros Hsame.
  assert (Hloop : forall flag,
    rangeContainers image cs flag = rangeContainers image cs' flag).
  { intros flag. induction Hsame as [|c c' cs cs' (Hn & Hi & Hm) _ IH];
      [reflexivity|].
    simpl. rewrite !nameAndImageMatch_eq. unfold namedSidecar.
    rewrite Hn, Hi, Hm, IH. reflexivity. }
  unfold ValidatePodHasSidecarContainerInjected. simpl.
  now rewrite Hloop.
Qed.

Lemma X11_verdict_ignores_the_image_tag_witness :
  Forall2 sameButTag
    [container SidecarContainerName "repoX:v1" [contractMount]]
    [container SidecarContainerName "repoX:v2@sha256:0a1b" [contractMount]] /\
  ValidatePodHasSidecarContainerInjected "repoX"
    (Some (pod [container SidecarContainerName "repoX:v2@sha256:0a1b"
                          [contractMount]]
               [contractVolume]))
  = Some true.
Proof.
  assert (H : Forall2 sameButTag
    [container SidecarContainerName "repoX:v1" [contractMount]]
    [container SidecarContainerName "repoX:v2@sha256:0a1b" [contractMount]]).
  { constructor; [|constructor]. repeat split. }
  split; [exact H|].
  rewrite <- (X11_verdict_ignores_the_image_tag "repoX" _ _ [contractVolume] H).
  reflexivity.
Defined.

(** X12.  Containers with another name play no part: the verdict is the
    same once they are removed. *)
Theorem X12_containers_of_other_names_are_ignored
        (image : string) (cs : list Container.t) (vs : list Volume.t) :
  ValidatePodHasSidecarContainerInjected image (Some (pod cs vs))
  = ValidatePodHasSidecarContainerInjected image
      (Some (pod (List.filter namedSidecar cs) vs)).
Proof.
  assert (Hloop : forall flag,
    rangeContainers image cs flag
    = rangeContainers image (List.filter namedSidecar cs) flag).
  { intros flag. induction cs as [|c cs IH]; [reflexivity|].
    simpl. destruct (namedSidecar c) eqn:Hname; simpl;
      rewrite nameAndImageMatch_eq, Hname; simpl.
    - now rewrite IH.
    - exact IH. }
  unfold ValidatePodHasSidecarContainerInjected. simpl.
  now rewrite Hloop.
Qed.

(** X13.  The volumes count as a set: two lists of volumes with the same
    members give the same verdict, whatever their order and repetitions.
    (The order of the containers does matter.) *)
Theorem X13_volumes_count_as_a_set
        (image : string) (cs : list Container.t) (vs vs' : list Volume.t) :
  (forall v, In v vs <-> In v vs') ->
  ValidatePodHasSidecarContainerInjected image (Some (pod cs vs))
  = ValidatePodHasSidecarContainerInjected image (Some (pod cs vs')).
Proof.
  intros Hsame.
  assert (Hvol : rangeVolumes vs false = rangeVolumes vs' false).
  { apply Bool.eq_iff_eq_true. rewrite !rangeVolumes_spec.
    unfold hasContractVolume.
    split; intros (v & Hin & Hv); exists v; (split; [now apply Hsame | exact Hv]). }
  unfold ValidatePodHasSidecarContainerInjected. simpl.
  now rewrite Hvol.
Qed.

Lemma X13_volumes_count_as_a_set_witness :
  (forall v, In v [hostPathVolume "data" "/data"; contractVolume] <->
             In v [contractVolume; hostPathVolume "data" "/data";
                   contractVolume]) /\
  ValidatePodHasSidecarContainerInjected "repoX"
    (Some (pod [sidecar]
               [contractVolume; hostPathVolume "data" "/data";
                contractVolume]))
  = Some true.
Proof.
  assert (H : forall v,
    In v [hostPathVolume "data" "/data"; contractVolume] <->
    In v [contractVolume; hostPathVolume "data" "/data"; contractVolume]).
  { intros v. simpl. tauto. }
  split; [exact H|].
  rewrite <- (X13_volumes_count_as_a_set "repoX" [sidecar] _ _ H).
  reflexivity.
Defined.

(** X14.  A pod that is accepted stays accepted when containers are
    added after its own and volumes are added anywhere. *)
Theorem X14_accepted_pod_stays_accepted
        (image : string) (cs more : list Container.t)
        (vs vs' : list Volume.t) :
  ValidatePodHasSidecarContainerInjected image (Some (pod cs vs)) = Some true ->
  (forall v, In v vs -> In v vs') ->
  ValidatePodHasSidecarContainerInjected image (Some (pod (cs ++ more) vs'))
  = Some true.
Proof.
  intros Hok Hsub.
  destruct (Validate_spec image (pod cs vs)) as (b & Hret & Hb).
  rewrite Hret in Hok. injection Hok as ->.
  destruct (proj1 Hb eq_refl)
    as [(pre & c & post & Hcs & Hpre & Hc & Hm) (v & Hin & Hv)].
  simpl in Hcs. subst cs.
  destruct (Validate_spec image (pod ((pre ++ c :: post) ++ more) vs'))
    as (b' & -> & Hb').
  f_equal. apply Hb'. split.
  - exists pre, c, (post ++ more). simpl.
    rewrite <- List.app_assoc. auto.
  - exists v. auto.
Qed.

Lemma X14_accepted_pod_stays_accepted_witness :
  ValidatePodHasSidecarContainerInjected "repoX"
    (Some (pod [workload; sidecar] [contractVolume])) = Some true /\
  ValidatePodHasSidecarContainerInjected "repoX"
    (Some (pod ([workload; sidecar] ++ [sidecarUnmounted; sidecarOtherImage])
               [hostPathVolume "data" "/data"; contractVolume]))
  = Some true.
Proof.
  split; [reflexivity|].
  apply (X14_accepted_pod_stays_accepted
           "repoX" [workload; sidecar] [sidecarUnmounted; sidecarOtherImage]
           [contractVolume] [hostPathVolume "data" "/data"; contractVolume]);
    [reflexivity|].
  intros v [<-|[]]. right. now left.
Defined.

End WebhookMore.

(** ** The test driver *)

Module e2eFacts.

Import fmt e2etest e2eNotions.

Lemma extends_refl (s : State) : extends s s.
Proof.
  repeat split; [exists [] | exists [] | lia]; now rewrite app_nil_r.
Qed.

Lemma extends_trans (s1 s2 s3 : State) :
  extends s1 s2 -> extends s2 s3 -> extends s1 s3.
Proof.
  intros ((a1 & H1) & (d1 & E1) & N1) ((a2 & H2) & (d2 & E2) & N2).
  repeat split.
  - exists (a1 ++ a2). now rewrite H2, H1, <- List.app_assoc.
  - exists (d1 ++ d2). now rewrite E2, E1, <- List.app_assoc.
  - lia.
Qed.


Lemma Extends_bind {A B : Type} (m : M A) (f : A -> M B) :
  Extends m -> (forall a, Extends (f a)) -> Extends (bind m f).
Proof.
  intros Hm Hf s. unfold bind. specialize (Hm s).
  destruct (m s) as [a s'|msg s'|s']; simpl in *; [|assumption..].
  eapply extends_trans; [exact Hm | apply Hf].
Qed.

Lemma Extends_ret {A : Type} (a : A) : Extends (ret a).
Proof. intros s. apply extends_refl. Qed.

Lemma Extends_failf {A : Type} (msg : string) : Extends (@failf A msg).
Proof. intros s. apply extends_refl. Qed.

Lemma Extends_panic {A : Type} : Extends (@panic A).
Proof. intros s. apply extends_refl. Qed.

Lemma Extends_get : Extends get.
Proof. intros s. apply extends_refl. Qed.

Lemma Extends_ask {A : Type} (answer : nat -> A) : Extends (ask answer).
Proof.
  intros s. repeat split; simpl;
    [exists [] | exists [] | lia]; now rewrite app_nil_r.
Qed.

Lemma Extends_emit (e : Effect) : Extends (emit e).
Proof.
  intros s. repeat split; simpl;
    [exists []; now rewrite app_nil_r | now exists [e] | lia].
Qed.

Lemma Extends_getPrefix : Extends getPrefix.
Proof.
  intros s. unfold getPrefix. destruct (config s); apply extends_refl.
Qed.

Lemma Extends_setPrefix (prefix : string) : Extends (setPrefix prefix).
Proof.
  intros s. unfold setPrefix. destruct (config s); [|apply extends_refl].
  repeat split; simpl; [exists [] | exists [] | lia]; now rewrite app_nil_r.
Qed.

Lemma Extends_getNamespaceName : Extends getNamespaceName.
Proof.
  intros s. unfold getNamespaceName.
  destruct (config s) as [c|]; [|apply extends_refl].
  destruct (storageframework.Framework_ c) as [f|]; [|apply extends_refl].
  destruct (storageframework.Namespace_ f); apply extends_refl.
Qed.

(** Appending to the store. *)
Lemma Extends_append (v : gcsVolume) :
  Extends (bind get (fun s => setVolumeStore (volumeStore s ++ [v]))).
Proof.
  intros s. repeat split; simpl;
    [now exists [v] | exists []; now rewrite app_nil_r | lia].
Qed.

Create HintDb extends.
#[local] Hint Resolve Extends_ret Extends_failf Extends_panic Extends_get
  Extends_ask Extends_emit Extends_getPrefix Extends_setPrefix
  Extends_getNamespaceName Extends_append : extends.

(** Take a computation apart along its binds and branches. *)
Local Ltac extends_step :=
  match goal with
  | |- Extends (bind get (fun s => setVolumeStore (volumeStore s ++ [_]))) =>
      apply Extends_append
  | |- Extends (bind _ _) => apply Extends_bind; [|intros ?]
  | |- Extends (match ?x with _ => _ end) => destruct x
  | |- Extends (if ?b then _ else _) => destruct b
  | |- Extends _ => solve [auto with extends]
  end.

Section Driver.

Variable k : specs.Constants.
Variable w : World.

Lemma Extends_prepareStorageService ns :
  Extends (prepareStorageService k w ns).
Proof. unfold prepareStorageService. repeat extends_step. Qed.

Lemma Extends_createBucket ns : Extends (createBucket k w ns).
Proof.
  unfold createBucket.
  apply Extends_bind; [apply Extends_prepareStorageService | intros ?].
  repeat extends_step.
Qed.

Lemma Extends_deleteBucket ns bucket : Extends (deleteBucket k w ns bucket).
Proof.
  unfold deleteBucket.
  apply Extends_bind; [apply Extends_prepareStorageService | intros ?].
  repeat extends_step.
Qed.

Lemma Extends_removeDataFile bucket : Extends (removeDataFile w bucket).
Proof. unfold removeDataFile. repeat extends_step. Qed.

Lemma Extends_createImplicitDir dirPath bucket :
  Extends (createImplicitDir w dirPath bucket).
Proof.
  unfold createImplicitDir.
  apply Extends_bind; [auto with extends | intros _].
  apply Extends_bind; [auto with extends | intros [err|]];
    [auto with extends|].
  apply Extends_bind; [auto with extends | intros _].
  apply Extends_bind; [auto with extends | intros [output [err|]]].
  - intros s. pose proof (Extends_removeDataFile bucket s) as H.
    destruct (removeDataFile w bucket s); exact H.
  - apply Extends_removeDataFile.
Qed.

Lemma Extends_mountOptionsFor prefix bucket :
  Extends (mountOptionsFor k w prefix bucket).
Proof.
  unfold mountOptionsFor.
  repeat first
    [ apply Extends_createImplicitDir
    | extends_step ].
Qed.

Lemma Extends_finishVolume bucket multiple :
  Extends (finishVolume k w bucket multiple).
Proof.
  unfold finishVolume.
  repeat first
    [ apply Extends_mountOptionsFor
    | extends_step ].
Qed.

Lemma Extends_createBuckets rounds : forall l,
  Extends (createBuckets k w rounds l).
Proof.
  induction rounds as [|rounds IH]; intros l; simpl.
  - auto with extends.
  - apply Extends_bind; [auto with extends | intros ns].
    apply Extends_bind; [apply Extends_createBucket | intros bucket].
    apply Extends_bind; [auto with extends | intros ns'].
    change (Extends
      (bind (bind get (fun s =>
               setVolumeStore
                 (volumeStore s
                  ++ [{| bucketName := bucket;
                         serviceAccountNamespace := ns';
                         mountOptions := "";
                         shared := false;
                         readOnly := false |}])))
            (fun _ => createBuckets k w rounds (l ++ [bucket])))).
    apply Extends_bind; [apply Extends_append | intros _; apply IH].
Qed.

Lemma Extends_CreateVolume volType : Extends (CreateVolume k w volType).
Proof.
  unfold CreateVolume.
  repeat first
    [ apply Extends_finishVolume
    | apply Extends_createBucket
    | apply Extends_createBuckets
    | extends_step ].
Qed.

Lemma Extends_deleteBuckets vs : Extends (deleteBuckets k w vs).
Proof.
  induction vs as [|v vs IH]; simpl; [auto with extends|].
  apply Extends_bind; [apply Extends_deleteBucket | intros _; exact IH].
Qed.

End Driver.

(** X15.  [CreateVolume] never removes or changes a stored volume, and
    never undoes an effect: however the call ends (it returns, it ends the
    test, it panics), the store before the call is the beginning of the
    store after it, and likewise the effects. *)
Theorem X15_CreateVolume_only_adds_to_the_store
        (k : specs.Constants) (w : World) (volType : string) (s : State) :
  (exists added,
     volumeStore (stateOf (CreateVolume k w volType s))
     = volumeStore s ++ added) /\
  (exists done,
     effects (stateOf (CreateVolume k w volType s)) = effects s ++ done) /\
  answers s <= answers (stateOf (CreateVolume k w volType s)).
Proof. apply (Extends_CreateVolume k w volType s). Qed.

(** *** Computations that leave the store and the configuration alone *)


Lemma frames_refl (s : State) : frames s s.
Proof. split; reflexivity. Qed.

Lemma frames_trans (s1 s2 s3 : State) :
  frames s1 s2 -> frames s2 s3 -> frames s1 s3.
Proof. intros [C1 V1] [C2 V2]. split; congruence. Qed.

Lemma Frames_bind {A B : Type} (m : M A) (f : A -> M B) :
  Frames m -> (forall a, Frames (f a)) -> Frames (bind m f).
Proof.
  intros Hm Hf s. unfold bind. specialize (Hm s).
  destruct (m s) as [a s'|msg s'|s']; simpl in *; [|assumption..].
  eapply frames_trans; [exact Hm | apply Hf].
Qed.

Lemma Frames_ret {A : Type} (a : A) : Frames (ret a).
Proof. intros s. apply frames_refl. Qed.

Lemma Frames_failf {A : Type} (msg : string) : Frames (@failf A msg).
Proof. intros s. apply frames_refl. Qed.

Lemma Frames_ask {A : Type} (answer : nat -> A) : Frames (ask answer).
Proof. intros s. split; reflexivity. Qed.

Lemma Frames_emit (e : Effect) : Frames (emit e).
Proof. intros s. split; reflexivity. Qed.

Create HintDb frames.
#[local] Hint Resolve Frames_ret Frames_failf Frames_ask Frames_emit : frames.

Local Ltac frames_step :=
  match goal with
  | |- Frames (bind _ _) => apply Frames_bind; [|intros ?]
  | |- Frames (match ?x with _ => _ end) => destruct x
  | |- Frames (if ?b then _ else _) => destruct b
  | |- Frames _ => solve [auto with frames]
  end.

Lemma Frames_prepareStorageService k w ns :
  Frames (prepareStorageService k w ns).
Proof. unfold prepareStorageService. repeat frames_step. Qed.

Lemma Frames_createBucket k w ns : Frames (createBucket k w ns).
Proof.
  unfold createBucket.
  apply Frames_bind; [apply Frames_prepareStorageService | intros ?].
  repeat frames_step.
Qed.

Lemma Frames_deleteBucket k w ns bucket :
  Frames (deleteBucket k w ns bucket).
Proof.
  unfold deleteBucket.
  apply Frames_bind; [apply Frames_prepareStorageService | intros ?].
  repeat frames_step.
Qed.

Lemma Frames_removeDataFile w bucket : Frames (removeDataFile w bucket).
Proof. unfold removeDataFile. repeat frames_step. Qed.

Lemma Frames_createImplicitDir w dirPath bucket :
  Frames (createImplicitDir w dirPath bucket).
Proof.
  unfold createImplicitDir.
  apply Frames_bind; [auto with frames | intros _].
  apply Frames_bind; [auto with frames | intros [err|]];
    [auto with frames|].
  apply Frames_bind; [auto with frames | intros _].
  apply Frames_bind; [auto with frames | intros [output [err|]]].
  - intros s. pose proof (Frames_removeDataFile w bucket s) as H.
    destruct (removeDataFile w bucket s); exact H.
  - apply Frames_removeDataFile.
Qed.

Lemma Frames_mountOptionsFor k w prefix bucket :
  Frames (mountOptionsFor k w prefix bucket).
Proof.
  unfold mountOptionsFor.
  repeat first
    [ apply Frames_createImplicitDir
    | frames_step ].
Qed.

(** *** Taking a computation that returns apart *)

Lemma bind_Done {A B : Type} (m : M A) (f : A -> M B) (s s' : State) (b : B) :
  bind m f s = Done b s' ->
  exists a s1, m s = Done a s1 /\ f a s1 = Done b s'.
Proof.
  unfold bind. destruct (m s) as [a s1|msg s1|s1]; [|discriminate..].
  intros H. exists a, s1. auto.
Qed.

Lemma getPrefix_Done (s s' : State) (prefix : string) :
  getPrefix s = Done prefix s' <->
  s' = s /\ exists c, config s = Some c /\ storageframework.Prefix c = prefix.
Proof.
  unfold getPrefix. destruct (config s) as [c|]; split.
  - intros [= <- <-]. split; [reflexivity|]. exists c. auto.
  - intros (-> & c' & [= <-] & <-). reflexivity.
  - discriminate.
  - intros (_ & c & H & _). discriminate H.
Qed.

Lemma getNamespaceName_Done (s s' : State) (ns : string) :
  getNamespaceName s = Done ns s' -> s' = s.
Proof.
  unfold getNamespaceName.
  destruct (config s) as [c|]; [|discriminate].
  destruct (storageframework.Framework_ c) as [f|]; [|discriminate].
  destruct (storageframework.Namespace_ f); [|discriminate].
  now intros [= _ <-].
Qed.

(** What [finishVolume] leaves when it returns a volume that it stores:
    the volume is the last of the store, and the configuration is as
    before. *)
Lemma finishVolume_stores k w bucket (s s' : State) (vol : TestVolume) :
  finishVolume k w bucket false s = Done vol s' ->
  exists v,
    vol = gcsVolumePtr (Some v) /\
    bucketName v = bucket /\
    plain v /\
    volumeStore s' = volumeStore s ++ [v] /\
    config s' = config s.
Proof.
  unfold finishVolume. intros H.
  apply bind_Done in H as (prefix & s1 & Hp & H).
  apply getPrefix_Done in Hp as (-> & _).
  apply bind_Done in H as (options & s2 & Ho & H).
  pose proof (Frames_mountOptionsFor k w prefix bucket s) as Hframe.
  rewrite Ho in Hframe. destruct Hframe as [Hc Hv]. simpl in Hc, Hv.
  apply bind_Done in H as (ns & s3 & Hns & H).
  apply getNamespaceName_Done in Hns as ->.
  cbv [bind get setVolumeStore ret] in H. injection H as <- <-.
  eexists. split; [reflexivity|]. simpl.
  repeat split; [now rewrite Hv | exact Hc].
Qed.

(** With a prefix that is none of the four named in the first switch,
    [CreateVolume] takes the default case. *)
Lemma CreateVolume_ordinary k w (s : State) (prefix : string) :
  getPrefix s = Done prefix s ->
  ordinaryPrefix k prefix ->
  CreateVolume k w storageframework.PreprovisionedPV s
  = match volumeStore s with
    | [] =>
        bind getNamespaceName
             (fun ns => bind (createBucket k w ns)
                             (fun bucket => finishVolume k w bucket false)) s
    | first :: _ => Done (gcsVolumePtr (Some first)) s
    end.
Proof.
  intros Hprefix (Hfake & Hforce & Hmultiple & Hsame).
  apply String.eqb_neq in Hfake, Hforce, Hmultiple, Hsame.
  unfold CreateVolume. rewrite String.eqb_refl.
  unfold bind at 1. rewrite Hprefix, Hfake, Hforce, Hmultiple, Hsame.
  unfold bind at 1, get. destruct (volumeStore s); reflexivity.
Qed.

(** X16.  With a prefix that is none of the four named in the first
    switch, [CreateVolume] creates a bucket on the first call only: when
    the store is not empty it returns the first stored volume, whatever
    the prefix says about mount options, and changes nothing, asks the
    world nothing and has no effect; so a call on an empty store that
    returns is followed by calls that return the same volume. *)
Theorem X16_ordinary_prefix_reuses_the_first_volume
        (k : specs.Constants) (w : World) (s : State) (prefix : string) :
  getPrefix s = Done prefix s ->
  ordinaryPrefix k prefix ->
  (forall first rest,
     volumeStore s = first :: rest ->
     CreateVolume k w storageframework.PreprovisionedPV s
     = Done (gcsVolumePtr (Some first)) s) /\
  (forall vol s',
     volumeStore s = [] ->
     CreateVolume k w storageframework.PreprovisionedPV s = Done vol s' ->
     CreateVolume k w storageframework.PreprovisionedPV s' = Done vol s').
Proof.
  intros Hprefix Hordinary.
  assert (Hreuse : forall t first rest,
    getPrefix t = Done prefix t ->
    volumeStore t = first :: rest ->
    CreateVolume k w storageframework.PreprovisionedPV t
    = Done (gcsVolumePtr (Some first)) t).
  { intros t first rest Hp Hstore.
    rewrite (CreateVolume_ordinary k w t prefix Hp Hordinary).
    now rewrite Hstore. }
  split; [intros first rest; now apply Hreuse|].
  intros vol s' Hempty H.
  rewrite (CreateVolume_ordinary k w s prefix Hprefix Hordinary), Hempty in H.
  apply bind_Done in H as (ns & s1 & Hns & H).
  apply getNamespaceName_Done in Hns as ->.
  apply bind_Done in H as (bucket & s2 & Hbucket & H).
  pose proof (Frames_createBucket k w ns s) as Hframe.
  rewrite Hbucket in Hframe. destruct Hframe as [Hc Hv]. simpl in Hc, Hv.
  apply finishVolume_stores in H as (v & -> & _ & _ & Hstore & Hconfig).
  apply (Hreuse s' v []).
  - apply getPrefix_Done. split; [reflexivity|].
    apply getPrefix_Done in Hprefix as (_ & c & Hcs & Hcp).
    exists c. split; [congruence | exact Hcp].
  - now rewrite Hstore, Hv, Hempty.
Qed.

Lemma X16_ordinary_prefix_reuses_the_first_volume_witness :
  getPrefix (initial "non-root-volume" "ns1")
  = Done "non-root-volume" (initial "non-root-volume" "ns1") /\
  ordinaryPrefix constants "non-root-volume" /\
  exists vol s',
    CreateVolume constants cloud storageframework.PreprovisionedPV
      (initial "non-root-volume" "ns1") = Done vol s' /\
    CreateVolume constants cloud storageframework.PreprovisionedPV s'
    = Done vol s'.
Proof.
  assert (Hord : ordinaryPrefix constants "non-root-volume").
  { repeat split; discriminate. }
  split; [reflexivity|]. split; [exact Hord|].
  destruct (CreateVolume constants cloud storageframework.PreprovisionedPV
              (initial "non-root-volume" "ns1")) as [vol s'|msg s'|s'] eqn:Hrun;
    [| vm_compute in Hrun; discriminate Hrun..].
  exists vol, s'. split; [reflexivity|].
  exact (proj2 (X16_ordinary_prefix_reuses_the_first_volume
                  constants cloud (initial "non-root-volume" "ns1")
                  "non-root-volume" eq_refl Hord)
               vol s' eq_refl Hrun).
Defined.

(** The configuration of a state in which the namespace can be read. *)
Lemma getNamespaceName_config (s s' : State) (ns : string) :
  getNamespaceName s = Done ns s' ->
  s' = s /\
  exists prefix,
    config s
    = Some {| storageframework.Prefix := prefix;
              storageframework.Framework_ :=
                Some {| storageframework.Namespace_ :=
                          Some {| storageframework.Name := ns |} |} |}.
Proof.
  unfold getNamespaceName.
  destruct (config s) as [[prefix [[[[name]|]]|]]|]; try discriminate.
  intros [= <- <-]. split; [reflexivity|]. now exists prefix.
Qed.

(** One round of the loop of the case of several buckets. *)
Lemma createBuckets_round k w rounds l (s s' : State) (names : list string) :
  createBuckets k w (S rounds) l s = Done names s' ->
  exists ns bucket s1,
    getNamespaceName s = Done ns s /\
    config s1 = config s /\
    volumeStore s1
    = volumeStore s ++ [ {| bucketName := bucket;
                            serviceAccountNamespace := ns;
                            mountOptions := "";
                            shared := false;
                            readOnly := false |} ] /\
    createBuckets k w rounds (l ++ [bucket]) s1 = Done names s'.
Proof.
  simpl. intros H.
  apply bind_Done in H as (ns & s1 & Hns & H).
  pose proof Hns as Hns0.
  apply getNamespaceName_config in Hns as (-> & prefix & Hconfig).
  apply bind_Done in H as (bucket & s2 & Hbucket & H).
  pose proof (Frames_createBucket k w ns s) as Hframe.
  rewrite Hbucket in Hframe. destruct Hframe as [Hc Hv]. simpl in Hc, Hv.
  apply bind_Done in H as (ns' & s3 & Hns' & H).
  apply getNamespaceName_config in Hns' as (-> & prefix' & Hconfig').
  assert (ns' = ns) as -> by congruence.
  unfold bind at 1, get in H. unfold bind at 1, setVolumeStore in H.
  eexists ns, bucket, _. split; [exact Hns0|].
  split; [|split; [|exact H]]; simpl; congruence.
Qed.

(** X17.  Under the prefix of several buckets, a call of [CreateVolume]
    that returns has created two buckets and stored a volume for each,
    with no mount options; it has replaced the prefix of the test
    configuration by the two bucket names joined by a comma; and the
    volume it returns, named [_], is not stored. *)
Theorem X17_multiple_buckets_are_stored_and_reported
        (k : specs.Constants) (w : World) (s s' : State) (vol : TestVolume) :
  getPrefix s = Done (specs.MultipleBucketsPrefix k) s ->
  specs.MultipleBucketsPrefix k <> specs.FakeVolumePrefix k ->
  specs.MultipleBucketsPrefix k <> specs.ForceNewBucketPrefix k ->
  CreateVolume k w storageframework.PreprovisionedPV s = Done vol s' ->
  exists ns bucket1 bucket2 options,
    volumeStore s'
    = volumeStore s
      ++ [ {| bucketName := bucket1; serviceAccountNamespace := ns;
              mountOptions := ""; shared := false; readOnly := false |};
           {| bucketName := bucket2; serviceAccountNamespace := ns;
              mountOptions := ""; shared := false; readOnly := false |} ] /\
    getPrefix s' = Done (bucket1 +:+ "," +:+ bucket2) s' /\
    vol = gcsVolumePtr
            (Some {| bucketName := "_"; serviceAccountNamespace := ns;
                     mountOptions := options;
                     shared := false; readOnly := false |}).
Proof.
  intros Hprefix Hfake Hforce H.
  apply String.eqb_neq in Hfake, Hforce.
  unfold CreateVolume in H. rewrite String.eqb_refl in H.
  unfold bind at 1 in H.
  rewrite Hprefix, Hfake, Hforce, String.eqb_refl in H.
  apply bind_Done in H as (names & s2 & Hloop & H).
  apply createBuckets_round in Hloop
    as (ns & bucket1 & t1 & Hns & Hc1 & Hv1 & Hloop).
  apply createBuckets_round in Hloop
    as (ns' & bucket2 & t2 & Hns' & Hc2 & Hv2 & Hloop).
  simpl in Hloop. injection Hloop as <- <-.
  apply getNamespaceName_config in Hns as (_ & prefix & Hconfig).
  apply getNamespaceName_config in Hns' as (_ & prefix' & Hconfig').
  assert (ns' = ns) as -> by congruence.
  assert (Hconfig2 : config t2
    = Some {| storageframework.Prefix := prefix;
              storageframework.Framework_ :=
                Some {| storageframework.Namespace_ :=
                          Some {| storageframework.Name := ns |} |} |})
    by congruence.
  unfold bind at 1, setPrefix in H. rewrite Hconfig2 in H.
  unfold finishVolume in H.
  apply bind_Done in H as (p & s3 & Hp & H).
  apply getPrefix_Done in Hp as (-> & c & Hc & Hcp).
  simpl in Hc. injection Hc as <-. simpl in Hcp. subst p.
  apply bind_Done in H as (options & s4 & Ho & H).
  match type of Ho with
  | mountOptionsFor _ _ ?p ?b ?t = _ =>
      pose proof (Frames_mountOptionsFor k w p b t) as Hframe
  end.
  rewrite Ho in Hframe. destruct Hframe as [Hc4 Hv4]. simpl in Hc4, Hv4.
  apply bind_Done in H as (ns4 & s5 & Hns4 & H).
  apply getNamespaceName_config in Hns4 as (-> & prefix4 & Hconfig4).
  assert (ns4 = ns) as -> by congruence.
  cbv [bind ret] in H. injection H as <- <-.
  exists ns, bucket1, bucket2, options.
  split; [|split; [|reflexivity]].
  - rewrite Hv4, Hv2, Hv1, <- List.app_assoc. reflexivity.
  - apply getPrefix_Done. split; [reflexivity|].
    eexists. split; [rewrite Hc4; reflexivity|]. reflexivity.
Qed.

Lemma X17_multiple_buckets_are_stored_and_reported_witness :
  exists vol s',
    CreateVolume constants cloud storageframework.PreprovisionedPV
      (initial "multiple-buckets" "ns1") = Done vol s' /\
    map bucketName (volumeStore s') = ["bucket-2"; "bucket-6"] /\
    getPrefix s' = Done "bucket-2,bucket-6" s'.
Proof.
  destruct (CreateVolume constants cloud storageframework.PreprovisionedPV
              (initial "multiple-buckets" "ns1")) as [vol s'|msg s'|s'] eqn:Hrun;
    [| vm_compute in Hrun; discriminate Hrun..].
  exists vol, s'. split; [reflexivity|].
  destruct (X17_multiple_buckets_are_stored_and_reported
              constants cloud (initial "multiple-buckets" "ns1") s' vol
              eq_refl) as (ns & b1 & b2 & options & Hstore & Hprefix & Hvol);
    [discriminate | discriminate | exact Hrun |].
  vm_compute in Hrun. injection Hrun as _ <-. split; reflexivity.
Defined.

(** X18.  Pre-provisioned and dynamically provisioned volumes get the
    same mount options: for a prefix that is neither the one of implicit
    directories nor the one of a shared bucket, the options that
    [CreateVolume] computes are the mount options of the storage class,
    joined by commas, and computing them asks the world nothing. *)
Theorem X18_mount_options_agree_with_the_storage_class
        (k : specs.Constants) (w : World) (DefaultName : string)
        (config : storageframework.PerTestConfig) (bucket : string)
        (s : State) :
  storageframework.Prefix config <> specs.ImplicitDirsVolumePrefix k ->
  storageframework.Prefix config <> specs.SameBucketDifferentDirPrefix k ->
  exists class,
    GetDynamicProvisionStorageClass k DefaultName (Some config) = Some class /\
    mountOptionsFor k w (storageframework.Prefix config) bucket s
    = Done (strings.Join (MountOptions class) ",") s.
Proof.
  intros Himplicit Hsame. apply String.eqb_neq in Himplicit, Hsame.
  eexists. split; [reflexivity|].
  unfold mountOptionsFor. simpl MountOptions.
  destruct (String.eqb (storageframework.Prefix config)
                       (specs.NonRootVolumePrefix k)); [reflexivity|].
  destruct (String.eqb (storageframework.Prefix config)
                       (specs.InvalidMountOptionsVolumePrefix k));
    [reflexivity|].
  rewrite Himplicit, Hsame. reflexivity.
Qed.

Lemma X18_mount_options_agree_with_the_storage_class_witness :
  mountOptionsFor constants cloud "non-root-volume" "bucket-0"
    (initial "non-root-volume" "ns1")
  = Done "debug_gcs,debug_fuse,debug_fs,uid=1001,gid=3003"
         (initial "non-root-volume" "ns1").
Proof.
  destruct (X18_mount_options_agree_with_the_storage_class
              constants cloud "gcsfuse.csi.storage.gke.io"
              {| storageframework.Prefix := "non-root-volume";
                 storageframework.Framework_ := None |}
              "bucket-0" (initial "non-root-volume" "ns1"))
    as (class & Hclass & Hoptions); [discriminate | discriminate |].
  injection Hclass as <-. exact Hoptions.
Defined.

(** X21.  [createImplicitDir] never leaves its temporary file behind
    without trying to remove it: once the file is created, the copy is
    attempted and then the removal, whether the copy succeeded or not.  If
    the file cannot be created, nothing else is attempted.  The call
    returns exactly when creation, copy and removal all succeed, and it
    never panics. *)
Theorem X21_createImplicitDir_always_removes_its_file
        (w : World) (dirPath bucket : string) (s : State) :
  let args := ["cp"; bucket;
               "gs://" +:+ bucket +:+ "/" +:+ dirPath +:+ "/"] in
  let o := createImplicitDir w dirPath bucket s in
  (Create w (answers s) bucket = None ->
   effects (stateOf o)
   = effects s ++ [osCreate bucket; gsutil args; osRemove bucket]) /\
  (Create w (answers s) bucket <> None ->
   effects (stateOf o) = effects s ++ [osCreate bucket]) /\
  ((exists s', o = Done tt s') <->
   Create w (answers s) bucket = None /\
   snd (CombinedOutput w (S (answers s)) args) = None /\
   Remove w (S (S (answers s))) bucket = None) /\
  (forall s', o <> Panic s').
Proof.
  intros args o. subst o args.
  unfold createImplicitDir, removeDataFile, bind, emit, ask, ret, failf.
  simpl.
  destruct (Create w (answers s) bucket) as [e|]; simpl.
  - split; [discriminate|].
    split; [reflexivity|].
    split; [|discriminate].
    split; [intros (s' & H); discriminate H | intros (H & _); discriminate H].
  - destruct (CombinedOutput w (S (answers s)) _) as [output [e|]]; simpl;
    destruct (Remove w (S (S (answers s))) bucket) as [e'|]; simpl;
      (split; [intros _; now rewrite <- !List.app_assoc|]);
      (split; [intros H; now contradiction H|]);
      (split; [|discriminate]);
      (split;
       [ intros (s' & H); first [discriminate H | auto]
       | intros (_ & H1 & H2);
         first [discriminate H1 | discriminate H2 | eexists; reflexivity] ]).
Qed.

Lemma X21_createImplicitDir_always_removes_its_file_witness :
  Create cloudKeeping 0 "bucket-0" = None /\
  effects (stateOf (createImplicitDir cloudKeeping "dir" "bucket-0"
                      (initial "implicit-dirs-volume" "ns1")))
  = [osCreate "bucket-0";
     gsutil ["cp"; "bucket-0"; "gs://bucket-0/dir/"];
     osRemove "bucket-0"].
Proof.
  split; [reflexivity|].
  apply (proj1 (X21_createImplicitDir_always_removes_its_file
                  cloudKeeping "dir" "bucket-0"
                  (initial "implicit-dirs-volume" "ns1"))).
  reflexivity.
Defined.




(** *** Computations that keep the driver sound *)



Lemma Safe_bind {A B : Type} (m : M A) (f : A -> M B)
      (Q : A -> Prop) (R : B -> Prop) :
  Safe m Q -> (forall a, Q a -> Safe (f a) R) -> Safe (bind m f) R.
Proof.
  intros Hm Hf s Hs. unfold bind. specialize (Hm s Hs).
  destruct (m s) as [a s'|msg s'|s']; [|assumption..].
  destruct Hm as [Hs' Ha]. now apply Hf.
Qed.

Lemma Safe_weaken {A : Type} (m : M A) (Q R : A -> Prop) :
  Safe m Q -> (forall a, Q a -> R a) -> Safe m R.
Proof.
  intros Hm HQR s Hs. specialize (Hm s Hs).
  destruct (m s); [|assumption..]. destruct Hm. auto.
Qed.

Lemma Safe_ret {A : Type} (a : A) (Q : A -> Prop) : Q a -> Safe (ret a) Q.
Proof. intros Ha s Hs. simpl. auto. Qed.

Lemma Safe_failf {A : Type} (msg : string) (Q : A -> Prop) :
  Safe (failf msg) Q.
Proof. intros s Hs. exact Hs. Qed.

Lemma Safe_get : Safe get (fun t => Forall plain (volumeStore t)).
Proof. intros s Hs. simpl. split; [exact Hs | apply Hs]. Qed.

Lemma Safe_ask {A : Type} (answer : nat -> A) : Safe (ask answer) (fun _ => True).
Proof. intros s Hs. simpl. split; [exact Hs | exact I]. Qed.

Lemma Safe_emit (e : Effect) : Safe (emit e) (fun _ => True).
Proof. intros s Hs. simpl. split; [exact Hs | exact I]. Qed.

Lemma Safe_getPrefix : Safe getPrefix (fun _ => True).
Proof.
  intros s Hs. unfold getPrefix.
  destruct Hs as [(prefix & ns & Hc) Hp]. rewrite Hc.
  split; [|exact I]. split; [now exists prefix, ns | exact Hp].
Qed.

Lemma Safe_getNamespaceName : Safe getNamespaceName (fun _ => True).
Proof.
  intros s Hs. unfold getNamespaceName.
  destruct Hs as [(prefix & ns & Hc) Hp]. rewrite Hc. simpl.
  split; [|exact I]. split; [now exists prefix, ns | exact Hp].
Qed.

Lemma Safe_setPrefix (prefix : string) : Safe (setPrefix prefix) (fun _ => True).
Proof.
  intros s Hs. unfold setPrefix.
  destruct Hs as [(prefix0 & ns & Hc) Hp]. rewrite Hc. simpl.
  split; [|exact I]. split; [now exists prefix, ns | exact Hp].
Qed.

Lemma Safe_append (v : gcsVolume) :
  plain v ->
  Safe (bind get (fun s => setVolumeStore (volumeStore s ++ [v])))
       (fun _ => True).
Proof.
  intros Hv s [Hw Hp]. simpl. split; [|exact I]. split.
  - exact Hw.
  - simpl. apply Forall_app. split; [exact Hp | now constructor].
Qed.

Create HintDb safe.
#[local] Hint Resolve Safe_failf Safe_ask Safe_emit Safe_getPrefix
  Safe_getNamespaceName Safe_setPrefix : safe.

(** Whatever a safe computation returns is acceptable when nothing is
    asked of it. *)
Lemma Safe_any {A : Type} (m : M A) (Q : A -> Prop) :
  Safe m Q -> Safe m (fun _ => True).
Proof. intros H. eapply Safe_weaken; [exact H | auto]. Qed.

Local Ltac safe_step :=
  match goal with
  | |- Safe (bind get (fun s => setVolumeStore (volumeStore s ++ [_]))) _ =>
      apply Safe_append; split; reflexivity
  | |- Safe (bind _ _) _ =>
      eapply Safe_bind; [solve [auto with safe] | intros ? _]
  | |- Safe (match ?x with _ => _ end) _ => destruct x
  | |- Safe (if ?b then _ else _) _ => destruct b
  | |- Safe (ret _) _ => apply Safe_ret; try exact I
  | |- Safe _ _ => solve [auto with safe]
  end.

Section SafeDriver.

Variable k : specs.Constants.
Variable w : World.

Lemma Safe_prepareStorageService ns :
  Safe (prepareStorageService k w ns) (fun _ => True).
Proof. unfold prepareStorageService. repeat safe_step. Qed.

Lemma Safe_createBucket ns : Safe (createBucket k w ns) (fun _ => True).
Proof.
  unfold createBucket.
  eapply Safe_bind; [apply Safe_prepareStorageService | intros ? _].
  repeat safe_step.
Qed.

Lemma Safe_removeDataFile bucket :
  Safe (removeDataFile w bucket) (fun _ => True).
Proof. unfold removeDataFile. repeat safe_step. Qed.

Lemma Safe_createImplicitDir dirPath bucket :
  Safe (createImplicitDir w dirPath bucket) (fun _ => True).
Proof.
  unfold createImplicitDir.
  eapply Safe_bind; [solve [auto with safe] | intros ? _].
  eapply Safe_bind; [solve [auto with safe] | intros [err|] _];
    [auto with safe|].
  eapply Safe_bind; [solve [auto with safe] | intros ? _].
  eapply Safe_bind; [solve [auto with safe] | intros [output [err|]] _].
  - intros s Hs. pose proof (Safe_removeDataFile bucket s Hs) as H.
    destruct (removeDataFile w bucket s); [apply H | exact H | exact H].
  - apply Safe_removeDataFile.
Qed.

Lemma Safe_mountOptionsFor prefix bucket :
  Safe (mountOptionsFor k w prefix bucket) (fun _ => True).
Proof.
  unfold mountOptionsFor.
  repeat first
    [ eapply Safe_bind; [apply Safe_createImplicitDir | intros ? _]
    | safe_step ].
Qed.


Lemma Safe_finishVolume bucket multiple :
  Safe (finishVolume k w bucket multiple) plainVolume.
Proof.
  unfold finishVolume.
  eapply Safe_bind; [apply Safe_getPrefix | intros prefix _].
  eapply Safe_bind; [apply Safe_mountOptionsFor | intros options _].
  eapply Safe_bind; [apply Safe_getNamespaceName | intros ns _].
  eapply Safe_bind with (Q := fun _ => True).
  - destruct multiple; [now apply Safe_ret|].
    apply Safe_append. split; reflexivity.
  - intros _ _. apply Safe_ret. eexists. split; [reflexivity|].
    split; reflexivity.
Qed.

Lemma Safe_createBuckets rounds : forall l,
  Safe (createBuckets k w rounds l) (fun _ => True).
Proof.
  induction rounds as [|rounds IH]; intros l; simpl.
  - now apply Safe_ret.
  - eapply Safe_bind; [apply Safe_getNamespaceName | intros ns _].
    eapply Safe_bind; [apply Safe_createBucket | intros bucket _].
    eapply Safe_bind; [apply Safe_getNamespaceName | intros ns' _].
    change (Safe
      (bind (bind get (fun s =>
               setVolumeStore
                 (volumeStore s
                  ++ [{| bucketName := bucket;
                         serviceAccountNamespace := ns';
                         mountOptions := "";
                         shared := false;
                         readOnly := false |}])))
            (fun _ => createBuckets k w rounds (l ++ [bucket])))
      (fun _ => True)).
    eapply Safe_bind; [apply Safe_append; split; reflexivity|].
    intros _ _. apply IH.
Qed.

Lemma Safe_CreateVolume_preprovisioned :
  Safe (CreateVolume k w storageframework.PreprovisionedPV) plainVolume.
Proof.
  unfold CreateVolume. rewrite String.eqb_refl.
  eapply Safe_bind; [apply Safe_getPrefix | intros prefix _].
  destruct (String.eqb prefix (specs.FakeVolumePrefix k)).
  { eapply Safe_bind; [apply Safe_ask | intros bucket _].
    apply Safe_finishVolume. }
  destruct (String.eqb prefix (specs.ForceNewBucketPrefix k)).
  { eapply Safe_bind; [apply Safe_getNamespaceName | intros ns _].
    eapply Safe_bind; [apply Safe_createBucket | intros bucket _].
    apply Safe_finishVolume. }
  destruct (String.eqb prefix (specs.MultipleBucketsPrefix k)).
  { eapply Safe_bind; [apply Safe_createBuckets | intros l _].
    eapply Safe_bind; [apply Safe_setPrefix | intros _ _].
    apply Safe_finishVolume. }
  destruct (String.eqb prefix (specs.SameBucketDifferentDirPrefix k)).
  { eapply Safe_bind; [apply Safe_get | intros t Ht].
    destruct (last (volumeStore t)).
    - apply Safe_finishVolume.
    - eapply Safe_bind; [apply Safe_getNamespaceName | intros ns _].
      eapply Safe_bind; [apply Safe_createBucket | intros bucket _].
      apply Safe_finishVolume. }
  eapply Safe_bind; [apply Safe_get | intros t Ht].
  cbv beta in Ht. revert Ht.
  destruct (volumeStore t) as [|first rest]; intros Ht.
  - eapply Safe_bind; [apply Safe_getNamespaceName | intros ns _].
    eapply Safe_bind; [apply Safe_createBucket | intros bucket _].
    apply Safe_finishVolume.
  - apply Safe_ret. exists first. split; [reflexivity|].
    apply Forall_cons in Ht as [Hfirst _]. exact Hfirst.
Qed.

End SafeDriver.

(** X19.  [GetVolume] is safe on a driver whose test configuration is
    there (with its framework and namespace) and whose stored volumes
    are neither shared nor read-only: it does not panic, since a
    pre-provisioned volume is never nil; the volume it reports is neither
    shared nor read-only and has a bucket name and mount options; and
    however it ends, the driver is again in such a state. *)
Theorem X19_GetVolume_does_not_panic_and_reports_plain_volumes
        (k : specs.Constants) (w : World) (s : State) :
  wired s ->
  Forall plain (volumeStore s) ->
  match GetVolume k w s with
  | Done (attributes, isShared, isReadOnly) s' =>
      isShared = false /\ isReadOnly = false /\
      is_Some (attributes !! "bucketName") /\
      is_Some (attributes !! "mountOptions") /\
      wired s' /\ Forall plain (volumeStore s')
  | Failf _ s' => wired s' /\ Forall plain (volumeStore s')
  | Panic _ => False
  end.
Proof.
  intros Hw Hp.
  assert (Hsafe : Safe (GetVolume k w)
    (fun '(attributes, isShared, isReadOnly) =>
       isShared = false /\ isReadOnly = false /\
       is_Some (attributes !! "bucketName") /\
       is_Some (attributes !! "mountOptions"))).
  { unfold GetVolume.
    eapply Safe_bind; [apply Safe_CreateVolume_preprovisioned|].
    intros vol (v & -> & Hshared & HreadOnly). simpl.
    apply Safe_ret. repeat split; try assumption.
    - eexists. apply lookup_insert_eq.
    - eexists. rewrite lookup_insert_ne by discriminate.
      apply lookup_singleton_eq. }
  specialize (Hsafe s (conj Hw Hp)).
  destruct (GetVolume k w s) as [[[attributes isShared] isReadOnly] s'|msg s'|s'].
  - destruct Hsafe as [[Hw' Hp'] (H1 & H2 & H3 & H4)]. auto 10.
  - exact Hsafe.
  - exact Hsafe.
Qed.

Lemma X19_GetVolume_does_not_panic_and_reports_plain_volumes_witness :
  wired (initial "same-bucket-different-dir" "ns1") /\
  Forall plain (volumeStore (initial "same-bucket-different-dir" "ns1")) /\
  exists attributes s',
    GetVolume constants cloud (initial "same-bucket-different-dir" "ns1")
    = Done (attributes, false, false) s'.
Proof.
  assert (Hw : wired (initial "same-bucket-different-dir" "ns1")).
  { eexists _, _. reflexivity. }
  assert (Hp : Forall plain
                 (volumeStore (initial "same-bucket-different-dir" "ns1"))).
  { constructor. }
  split; [exact Hw|]. split; [exact Hp|].
  pose proof (X19_GetVolume_does_not_panic_and_reports_plain_volumes
                constants cloud (initial "same-bucket-different-dir" "ns1")
                Hw Hp) as H.
  destruct (GetVolume constants cloud
              (initial "same-bucket-different-dir" "ns1"))
    as [[[attributes isShared] isReadOnly] s'|msg s'|s'] eqn:Hrun;
    [| vm_compute in Hrun; discriminate Hrun | contradiction].
  destruct H as (-> & -> & _). now exists attributes, s'.
Defined.

End e2eFacts.
